(** * GRR file store ([grr_response_server/file_store.py])

    A shallow embedding of the REL_DB-based file store: the [BlobStream]
    file-like reader, [AddFileWithUnknownHash] and [OpenFile], together
    with the properties the design document states about them.

    Python integers are unbounded, so offsets, sizes and lengths are [Z].
    Byte strings are [list byte].  Exceptions are values of [Error]; a
    method that mutates [self] or talks to [data_store] is a function in
    the state-and-exception monad [M]. *)

From Stdlib Require Import List ZArith Lia Bool String.
From Stdlib.Strings Require Import Byte.
Import ListNotations.
Open Scope Z_scope.

Set Implicit Arguments.

(** ** Data model *)

Definition bytes := list byte.
Definition BlobID := bytes.
Definition HashID := bytes.
Definition ClientPath := string.

(** [rdf_objects.BlobReference] *)
Record BlobReference := mkBlobReference {
  offset : Z;
  size : Z;
  blob_id : BlobID
}.

(** The part of [rdf_objects.PathInfo] the file store reads. *)
Record PathInfo := mkPathInfo {
  timestamp : Z;
  hash_entry_sha256 : bytes
}.

(** The exception classes of the module, and the built-in ones its code
    can raise. *)
Inductive Error :=
| BlobNotFound (k : BlobID)
| FileHasNoContent
| MissingBlobReferences (hash_id : HashID)
| OversizedRead (length max_unbound_read : Z)
| IndexError
| KeyError (k : BlobID)
| ValueError (whence : Z)
| TypeError
| ValueError_length (got : nat).

Inductive outcome (A : Type) :=
| Ok (a : A)
| Raise (e : Error).
Arguments Ok {A} a.
Arguments Raise {A} e.

(** ** Boolean equalities (Python [==] on bytes and on references) *)

Fixpoint bytes_eqb (a b : bytes) : bool :=
  match a, b with
  | [], [] => true
  | x :: a', y :: b' => Byte.eqb x y && bytes_eqb a' b'
  | _, _ => false
  end.

Definition BlobReference_eqb (r1 r2 : BlobReference) : bool :=
  (offset r1 =? offset r2) && (size r1 =? size r2)
  && bytes_eqb (blob_id r1) (blob_id r2).

(** [self._current_ref != found_ref], where [_current_ref] may be [None]. *)
Definition current_ref_neq (cur : option BlobReference) (found : BlobReference)
  : bool :=
  match cur with
  | None => true
  | Some r => negb (BlobReference_eqb r found)
  end.

(** ** Python sequence operations *)

(** [b[i:]] *)
Definition slice_from (b : bytes) (i : Z) : bytes :=
  if 0 <=? i then skipn (Z.to_nat i) b
  else skipn (Z.to_nat (Z.of_nat (List.length b) + i)) b.

(** [b[:n]] *)
Definition slice_to (b : bytes) (n : Z) : bytes :=
  if 0 <=? n then firstn (Z.to_nat n) b
  else firstn (Z.to_nat (Z.of_nat (List.length b) + n)) b.

(** [l[-1]]; [None] stands for the [IndexError] on an empty list. *)
Fixpoint last_item {A : Type} (l : list A) : option A :=
  match l with
  | [] => None
  | [x] => Some x
  | _ :: l' => last_item l'
  end.

(** [d[k]] on a dict given as its item list; [None] is a [KeyError]. *)
Fixpoint getitem {V : Type} (d : list (bytes * V)) (k : bytes) : option V :=
  match d with
  | [] => None
  | (k', v) :: d' => if bytes_eqb k' k then Some v else getitem d' k
  end.

(** ** The world outside the module: [data_store] and [config] *)

Record World := mkWorld {
  (** contents of the blob store [data_store.BLOBS] *)
  BLOBS : list (BlobID * bytes);
  (** every [BLOBS.ReadBlobs] call made so far, most recent first *)
  BLOBS_reads : list (list BlobID);
  (** [REL_DB]: hash id to blob references, most recent write first *)
  hash_blob_refs : list (HashID * list BlobReference);
  (** [REL_DB]: collection history, (path, timestamp, sha256) *)
  path_history : list (ClientPath * PathInfo);
  (** [config.CONFIG["Server.max_unbound_read_size"]] *)
  max_unbound_read_size : Z
}.

(** ** State-and-exception monad *)

Definition M (S A : Type) : Type := S -> outcome A * S.

Definition ret {S A : Type} (a : A) : M S A := fun s => (Ok a, s).
Definition raise {S A : Type} (e : Error) : M S A := fun s => (Raise e, s).
Definition bind {S A B : Type} (m : M S A) (k : A -> M S B) : M S B :=
  fun s =>
    match m s with
    | (Ok a, s') => k a s'
    | (Raise e, s') => (Raise e, s')
    end.
Definition get {S : Type} : M S S := fun s => (Ok s, s).

Declare Scope monad_scope.
Delimit Scope monad_scope with monad.
Notation "x <- m ;; k" := (bind m (fun x => k))
  (at level 61, m at next level, right associativity) : monad_scope.
Notation "m ;;; k" := (bind m (fun _ => k))
  (at level 61, right associativity) : monad_scope.
Open Scope monad_scope.

(** Run a [data_store] operation from inside a method of an object. *)
Definition in_world {O A : Type} (m : M World A) : M (O * World) A :=
  fun s =>
    match m (snd s) with
    | (r, w') => (r, (fst s, w'))
    end.

(** A dict lookup that raises [KeyError]. *)
Definition getitem_or_raise {S V : Type} (d : list (bytes * V)) (k : bytes)
  : M S V :=
  match getitem d k with
  | Some v => ret v
  | None => raise (KeyError k)
  end.

(** ** The backends *)

(** [data_store.BLOBS.ReadBlobs(ids)]: a dict with one item per requested
    id, in the order the ids are enumerated; the value is [None] for an id
    the store does not hold. *)
Definition ReadBlobs (ids : list BlobID)
  : M World (list (BlobID * option bytes)) :=
  fun w =>
    (Ok (map (fun k => (k, getitem (BLOBS w) k)) ids),
     {| BLOBS := BLOBS w;
        BLOBS_reads := ids :: BLOBS_reads w;
        hash_blob_refs := hash_blob_refs w;
        path_history := path_history w;
        max_unbound_read_size := max_unbound_read_size w |}).

(** [data_store.REL_DB.WriteHashBlobReferences({hash_id: blob_refs})] *)
Definition WriteHashBlobReferences (hash_id : HashID)
  (blob_refs : list BlobReference) : M World unit :=
  fun w =>
    (Ok tt,
     {| BLOBS := BLOBS w;
        BLOBS_reads := BLOBS_reads w;
        hash_blob_refs := (hash_id, blob_refs) :: hash_blob_refs w;
        path_history := path_history w;
        max_unbound_read_size := max_unbound_read_size w |}).

(** [data_store.REL_DB.ReadHashBlobReferences([hash_id])[hash_id]] *)
Definition ReadHashBlobReferences (hash_id : HashID)
  : M World (option (list BlobReference)) :=
  fun w => (Ok (getitem (hash_blob_refs w) hash_id), w).

(** Modelled from the spec: [REL_DB.ReadLatestPathInfosWithHashBlobReferences]
    is a database method outside this module.  Among the bindings recorded
    for the path it picks the one with the greatest timestamp not exceeding
    [max_timestamp] (the absolute latest when no ceiling is given), or
    [None] when there is none. *)
Definition within_ceiling (max_timestamp : option Z) (p : PathInfo) : bool :=
  match max_timestamp with
  | None => true
  | Some m => timestamp p <=? m
  end.

Fixpoint latest_of (best : option PathInfo) (l : list PathInfo)
  : option PathInfo :=
  match l with
  | [] => best
  | p :: l' =>
      match best with
      | None => latest_of (Some p) l'
      | Some b =>
          if timestamp b <? timestamp p then latest_of (Some p) l'
          else latest_of best l'
      end
  end.

Definition bindings_of (client_path : ClientPath) (max_timestamp : option Z)
  (w : World) : list PathInfo :=
  filter (within_ceiling max_timestamp)
    (map snd
       (filter (fun b => String.eqb (fst b) client_path) (path_history w))).

Definition ReadLatestPathInfosWithHashBlobReferences
  (client_path : ClientPath) (max_timestamp : option Z)
  : M World (option PathInfo) :=
  fun w => (Ok (latest_of None (bindings_of client_path max_timestamp w)), w).

(** ** [class BlobStream] *)

Definition SEEK_SET : Z := 0.
Definition SEEK_CUR : Z := 1.
Definition SEEK_END : Z := 2.

Module BlobStream.

Record t := mk {
  _blob_refs : list BlobReference;
  _hash_id : HashID;
  _max_unbound_read : Z;
  _offset : Z;
  _length : Z;
  _current_ref : option BlobReference;
  _current_chunk : option bytes
}.

(** A method runs on the object and the world. *)
Definition Method (A : Type) : Type := M (t * World) A.

Definition self : Method t := fun s => (Ok (fst s), s).
Definition set_self (o : t) : Method unit := fun s => (Ok tt, (o, snd s)).

Definition with_offset (o : t) (off : Z) : t :=
  {| _blob_refs := _blob_refs o; _hash_id := _hash_id o;
     _max_unbound_read := _max_unbound_read o;
     _offset := off; _length := _length o;
     _current_ref := _current_ref o;
     _current_chunk := _current_chunk o |}.

Definition with_current (o : t) (ref : BlobReference) (chunk : option bytes)
  : t :=
  {| _blob_refs := _blob_refs o; _hash_id := _hash_id o;
     _max_unbound_read := _max_unbound_read o;
     _offset := _offset o; _length := _length o;
     _current_ref := Some ref;
     _current_chunk := chunk |}.

(** [self._current_ref = ref] and [self._current_chunk = chunk], each on
    its own. *)
Definition with_current_ref (o : t) (ref : BlobReference) : t :=
  {| _blob_refs := _blob_refs o; _hash_id := _hash_id o;
     _max_unbound_read := _max_unbound_read o;
     _offset := _offset o; _length := _length o;
     _current_ref := Some ref;
     _current_chunk := _current_chunk o |}.

Definition with_current_chunk (o : t) (chunk : option bytes) : t :=
  {| _blob_refs := _blob_refs o; _hash_id := _hash_id o;
     _max_unbound_read := _max_unbound_read o;
     _offset := _offset o; _length := _length o;
     _current_ref := _current_ref o;
     _current_chunk := chunk |}.

(** [__init__]: no check of the list is made; [self._blob_refs[-1]]
    raises [IndexError] on an empty list. *)
Definition __init__ (blob_refs : list BlobReference) (hash_id : HashID)
  : M World t :=
  w <- get ;;
  match last_item blob_refs with
  | None => raise IndexError
  | Some l =>
      ret {| _blob_refs := blob_refs;
             _hash_id := hash_id;
             _max_unbound_read := max_unbound_read_size w;
             _offset := 0;
             _length := offset l + size l;
             _current_ref := None;
             _current_chunk := None |}
  end.

(** The test of the [for ref in self._blob_refs] scan. *)
Definition covers (off : Z) (ref : BlobReference) : bool :=
  (off >=? offset ref) && (off <? offset ref + size ref).

(** [_GetChunk]: [(None, None)] when no reference covers the cursor.  A
    reference that covers the cursor has a positive size, so the object
    is true for [if not found_ref]; [!=] on references compares their
    fields.  On a cache miss the reference is stored first, then the blob
    is fetched, then the chunk is stored, as in the source: an exception
    between the two leaves the new reference with the old chunk. *)
Definition _GetChunk : Method (option bytes * option BlobReference) :=
  o <- self ;;
  match find (covers (_offset o)) (_blob_refs o) with
  | None => ret (None, None)
  | Some found_ref =>
      (if current_ref_neq (_current_ref o) found_ref then
         set_self (with_current_ref o found_ref) ;;;
         data <- in_world (ReadBlobs [blob_id found_ref]) ;;
         chunk <- getitem_or_raise data (blob_id found_ref) ;;
         o1 <- self ;;
         set_self (with_current_chunk o1 chunk)
       else ret tt) ;;;
      o' <- self ;;
      ret (_current_chunk o', _current_ref o')
  end.

(** Python truthiness of a chunk: [None] and [b""] are false. *)
Definition truthy (chunk : option bytes) : option bytes :=
  match chunk with
  | None | Some [] => None
  | Some b => Some b
  end.

(** The [while result.tell() < length] loop.  [fuel] bounds the number
    of iterations; [None] means the bound was hit. *)
Fixpoint Read_loop (fuel : nat) (length : Z) (result : bytes)
  (s : t * World) {struct fuel} : option (outcome bytes * (t * World)) :=
  if Z.of_nat (List.length result) <? length then
    match fuel with
    | O => None
    | S fuel' =>
        match _GetChunk s with
        | (Raise e, s1) => Some (Raise e, s1)
        | (Ok (chunk, ref), s1) =>
            match truthy chunk, ref with
            | Some chunk, Some ref =>
                match slice_from chunk (_offset (fst s1) - offset ref) with
                | [] => Some (Ok result, s1)
                | part =>
                    Read_loop fuel' length (result ++ part)
                      (with_offset (fst s1)
                         (_offset (fst s1)
                          + Z.min length (Z.of_nat (List.length part))),
                       snd s1)
                end
            | _, _ => Some (Ok result, s1)
            end
        end
    end
  else Some (Ok result, s).

(** [Read(length=None)].  Every iteration of the loop writes at least
    one byte, so [length] iterations are enough (see
    [Read_loop_terminates]). *)
Definition Read (length : option Z) (s : t * World)
  : option (outcome bytes * (t * World)) :=
  let length :=
    match length with
    | None => _length (fst s) - _offset (fst s)
    | Some n => n
    end in
  if length >? _max_unbound_read (fst s) then
    Some (Raise (OversizedRead length (_max_unbound_read (fst s))), s)
  else
    match Read_loop (Z.to_nat length) length [] s with
    | Some (Ok result, s') => Some (Ok (slice_to result length), s')
    | r => r
    end.

Definition Tell : Method Z :=
  o <- self ;; ret (_offset o).

Definition Seek (off : Z) (whence : Z) : Method unit :=
  o <- self ;;
  if whence =? SEEK_SET then set_self (with_offset o off)
  else if whence =? SEEK_CUR then set_self (with_offset o (_offset o + off))
  else if whence =? SEEK_END then set_self (with_offset o (_length o + off))
  else raise (ValueError whence).

(** The [size] and [hash_id] properties. *)
Definition size (o : t) : Z := _length o.
Definition hash_id (o : t) : HashID := _hash_id o.

End BlobStream.

(** ** [AddFileWithUnknownHash] *)

Definition _BLOBS_READ_BATCH_SIZE : nat := 200.

(** Modelled from the spec: [collection.Batch] lives in
    [grr_response_core.lib.util], outside this module.  It cuts the items
    into consecutive groups of [size] items, the last group holding what
    remains; [batch] is the group being filled. *)
Fixpoint Batch_from {A : Type} (batch : list A) (items : list A) (size : nat)
  : list (list A) :=
  match items with
  | [] => match batch with [] => [] | _ => [batch] end
  | item :: items' =>
      let batch := batch ++ [item] in
      if Nat.eqb (List.length batch) size
      then batch :: Batch_from [] items' size
      else Batch_from batch items' size
  end.

Definition Batch {A : Type} (items : list A) (size : nat) : list (list A) :=
  Batch_from [] items size.

(** The interface of a [hashlib] hash object. *)
Record hashlib := mkHashlib {
  hasher : Type;
  new : hasher;
  update : hasher -> bytes -> hasher;
  digest : hasher -> bytes
}.

(** What [hashlib] documents: feeding chunks one by one is the same as
    hashing their concatenation with the one-shot function [f]. *)
Definition streams (H : hashlib) (f : bytes -> bytes) : Prop :=
  forall chunks : list bytes,
    digest H (fold_left (update H) chunks (new H)) = f (List.concat chunks).

(** A hash object that buffers the message and applies [f] at the end. *)
Definition buffered (f : bytes -> bytes) : hashlib :=
  {| hasher := bytes;
     new := [];
     update := fun h b => h ++ b;
     digest := f |}.

Section AddFile.

(** The [sha256] of [hashlib]. *)
Variable sha256 : hashlib.

(** The order in which the items of [ReadBlobs(set(batch))] come back:
    it depends on the iteration order of the set and on the backend. *)
Variable fetch_order : list BlobID -> list BlobID.

(** [for k, v in iteritems(data): if v is None: raise BlobNotFound] *)
Fixpoint check_found (data : list (BlobID * option bytes)) : M World unit :=
  match data with
  | [] => ret tt
  | (k, None) :: _ => raise (BlobNotFound k)
  | (_, Some _) :: data' => check_found data'
  end.

(** The local variables of the function. *)
Record locals := mkLocals {
  blob_refs : list BlobReference;
  running_offset : Z;
  sha256_state : hasher sha256
}.

(** [for blob_id in blob_ids_batch: ...] *)
Fixpoint add_batch (data : list (BlobID * option bytes))
  (blob_ids_batch : list BlobID) (l : locals) : M World locals :=
  match blob_ids_batch with
  | [] => ret l
  | blob_id :: rest =>
      blob_data <- getitem_or_raise data blob_id ;;
      match blob_data with
      | None => raise TypeError (* [len(None)] *)
      | Some blob_data =>
          add_batch data rest
            {| blob_refs :=
                 blob_refs l ++
                 [ {| offset := running_offset l;
                      size := Z.of_nat (List.length blob_data);
                      blob_id := blob_id |} ];
               running_offset :=
                 running_offset l + Z.of_nat (List.length blob_data);
               sha256_state := update sha256 (sha256_state l) blob_data |}
      end
  end.

(** [for blob_ids_batch in collection.Batch(...): ...] *)
Fixpoint add_batches (batches : list (list BlobID)) (l : locals)
  : M World locals :=
  match batches with
  | [] => ret l
  | blob_ids_batch :: batches' =>
      let unique_ids := fetch_order blob_ids_batch in
      data <- ReadBlobs unique_ids ;;
      check_found data ;;;
      l' <- add_batch data blob_ids_batch l ;;
      add_batches batches' l'
  end.

Definition AddFileWithUnknownHash (blob_ids : list BlobID) : M World HashID :=
  l <- add_batches (Batch blob_ids _BLOBS_READ_BATCH_SIZE)
         {| blob_refs := []; running_offset := 0;
            sha256_state := new sha256 |} ;;
  let hash_id := digest sha256 (sha256_state l) in
  WriteHashBlobReferences hash_id (blob_refs l) ;;;
  ret hash_id.

End AddFile.

(** ** [OpenFile] *)

(** Modelled from the spec: [rdf_objects.SHA256HashID] is defined outside
    this module.  A file content hash is a fixed-width 256-bit digest:
    [FromBytes] wraps 32 bytes and refuses any other length with
    [ValueError].  ([AddFileWithUnknownHash] applies it to the digest of
    [hashlib.sha256], which is 32 bytes.) *)
Definition SHA256_LENGTH : nat := 32.

Definition SHA256HashID_FromBytes {S : Type} (raw : bytes) : M S HashID :=
  if Nat.eqb (List.length raw) SHA256_LENGTH then ret raw
  else raise (ValueError_length (List.length raw)).

Definition OpenFile (client_path : ClientPath) (max_timestamp : option Z)
  : M World BlobStream.t :=
  path_info <-
    ReadLatestPathInfosWithHashBlobReferences client_path max_timestamp ;;
  match path_info with
  | None => raise FileHasNoContent
  | Some path_info =>
      hash_id <- SHA256HashID_FromBytes (hash_entry_sha256 path_info) ;;
      blob_references <- ReadHashBlobReferences hash_id ;;
      match blob_references with
      | None => raise (MissingBlobReferences hash_id)
      | Some blob_references => BlobStream.__init__ blob_references hash_id
      end
  end.

(** ** [CheckHashes] *)

(** Modelled from the spec: [REL_DB.ReadHashBlobReferences(hash_ids)] is a
    database method outside this module.  It returns a dict with one item
    per requested hash: the reference list recorded for it, or [None]. *)
Definition ReadHashBlobReferences_dict (hash_ids : list HashID)
  : M World (list (HashID * option (list BlobReference))) :=
  fun w => (Ok (map (fun h => (h, getitem (hash_blob_refs w) h)) hash_ids), w).

(** [bool(v)] for a value that is [None] or a list. *)
Definition bool_of_refs (v : option (list BlobReference)) : bool :=
  match v with
  | None | Some [] => false
  | Some (_ :: _) => true
  end.

Definition CheckHashes (hash_ids : list HashID)
  : M World (list (HashID * bool)) :=
  d <- ReadHashBlobReferences_dict hash_ids ;;
  ret (map (fun kv => (fst kv, bool_of_refs (snd kv))) d).

(** ** [class CompositeExternalFileStore] *)

Module CompositeExternalFileStore.
Section Stores.

(** What the registered stores act on. *)
Variable S : Type.

(** An [ExternalFileStore] is known by its [AddFile] method. *)
Definition ExternalFileStore : Type :=
  HashID -> list BlobReference -> M S unit.

(** An argument of [RegisterFileStore]: an instance of a class
    inheriting from [ExternalFileStore], or any other object. *)
Inductive object :=
| Instance (fs : ExternalFileStore)
| Other.

Record t := mk {
  nested_stores : list ExternalFileStore
}.

(** [self.nested_stores = nested_stores or []] *)
Definition __init__ (nested_stores : option (list ExternalFileStore)) : t :=
  match nested_stores with
  | None => mk []
  | Some l => mk l
  end.

Definition RegisterFileStore (fs : object) : M t unit :=
  match fs with
  | Other => raise TypeError
  | Instance fs => fun self => (Ok tt, mk (nested_stores self ++ [fs]))
  end.

(** [for fs in self.nested_stores: fs.AddFile(file_hash, blob_refs)] *)
Fixpoint AddFile_loop (stores : list ExternalFileStore) (file_hash : HashID)
  (blob_refs : list BlobReference) : M S unit :=
  match stores with
  | [] => ret tt
  | fs :: stores' =>
      fs file_hash blob_refs ;;; AddFile_loop stores' file_hash blob_refs
  end.

Definition AddFile (self : t) (file_hash : HashID)
  (blob_refs : list BlobReference) : M S unit :=
  AddFile_loop (nested_stores self) file_hash blob_refs.

(** [EXTERNAL_FILE_STORE = CompositeExternalFileStore()] *)
Definition EXTERNAL_FILE_STORE : t := __init__ None.

End Stores.
End CompositeExternalFileStore.

(** ** Vocabulary of the properties *)

(** The bytes the blob store holds for an id, and for a reference. *)
Definition blob_of (blobs : list (BlobID * bytes)) (k : BlobID) : bytes :=
  match getitem blobs k with
  | Some b => b
  | None => []
  end.

Definition chunk_of (blobs : list (BlobID * bytes)) (ref : BlobReference)
  : bytes :=
  match getitem blobs (blob_id ref) with
  | Some b => b
  | None => []
  end.

(** The logical file: the chunks' bytes, concatenated in list order. *)
Definition logical_file (blobs : list (BlobID * bytes))
  (refs : list BlobReference) : bytes :=
  List.concat (map (chunk_of blobs) refs).

Definition total_size (refs : list BlobReference) : Z :=
  fold_right (fun r n => size r + n) 0 refs.

(** The references tile the file from offset [start] on, without gaps or
    overlaps (hence sorted by offset). *)
Fixpoint contiguous_from (start : Z) (refs : list BlobReference) : Prop :=
  match refs with
  | [] => True
  | r :: refs' =>
      offset r = start /\ 0 <= size r /\ contiguous_from (start + size r) refs'
  end.

(** The blob of a reference is in the store and has the recorded size. *)
Definition stored (blobs : list (BlobID * bytes)) (ref : BlobReference)
  : Prop :=
  exists b, getitem blobs (blob_id ref) = Some b
            /\ Z.of_nat (List.length b) = size ref.

(** A stream over [refs] in a world whose blob store holds [blobs]; the
    cached chunk, when there is one, is the blob of the cached reference. *)
Record stream_over (blobs : list (BlobID * bytes))
  (refs : list BlobReference) (s : BlobStream.t * World) : Prop := {
  over_refs : BlobStream._blob_refs (fst s) = refs;
  over_blobs : BLOBS (snd s) = blobs;
  over_length : BlobStream._length (fst s) = total_size refs;
  over_cache : forall r,
      BlobStream._current_ref (fst s) = Some r ->
      BlobStream._current_chunk (fst s) = getitem blobs (blob_id r)
}.

(** The bytes at positions [[k, k + n)] of [b] (fewer at the end). *)
Definition bytes_at (b : bytes) (k n : Z) : bytes :=
  firstn (Z.to_nat n) (skipn (Z.to_nat k) b).

(** The checks the design document asks of the constructor, as a
    decision procedure: non-empty, first offset zero, each reference
    starting where the previous one ends. *)
Fixpoint contiguous_fromb (start : Z) (refs : list BlobReference) : bool :=
  match refs with
  | [] => true
  | r :: refs' =>
      (offset r =? start) && contiguous_fromb (start + size r) refs'
  end.

Fixpoint sorted_by_offset (refs : list BlobReference) : bool :=
  match refs with
  | r1 :: (r2 :: _) as refs' =>
      (offset r1 <=? offset r2) && sorted_by_offset refs'
  | _ => true
  end.

Definition valid_reference_list (refs : list BlobReference) : bool :=
  match refs with
  | [] => false
  | _ => sorted_by_offset refs && contiguous_fromb 0 refs
  end.

(** What [ReadBlobs] answers for [ids], and whether an id is missing. *)
Definition fetched (blobs : list (BlobID * bytes)) (ids : list BlobID)
  : list (BlobID * option bytes) :=
  map (fun k => (k, getitem blobs k)) ids.

Definition missing (blobs : list (BlobID * bytes)) (k : BlobID) : bool :=
  match getitem blobs k with
  | None => true
  | Some _ => false
  end.

(** One way to enumerate [set(batch)]: keep the last occurrence of each
    id. *)
Fixpoint dedup (l : list BlobID) : list BlobID :=
  match l with
  | [] => []
  | k :: l' => if existsb (bytes_eqb k) l' then dedup l' else k :: dedup l'
  end.

(** The reference list [AddFileWithUnknownHash] builds for [ids] when the
    running offset is [start]. *)
Fixpoint refs_from (blobs : list (BlobID * bytes)) (start : Z)
  (ids : list BlobID) : list BlobReference :=
  match ids with
  | [] => []
  | k :: ids' =>
      let n := Z.of_nat (List.length (blob_of blobs k)) in
      {| offset := start; size := n; blob_id := k |}
      :: refs_from blobs (start + n) ids'
  end.

(** The world after one more [ReadBlobs(ids)] call. *)
Definition logged (ids : list BlobID) (w : World) : World :=
  {| BLOBS := BLOBS w;
     BLOBS_reads := ids :: BLOBS_reads w;
     hash_blob_refs := hash_blob_refs w;
     path_history := path_history w;
     max_unbound_read_size := max_unbound_read_size w |}.

(** The cached chunk, when there is one, is what the store holds for the
    cached reference. *)
Definition cache_coherent (s : BlobStream.t * World) : Prop :=
  forall r,
    BlobStream._current_ref (fst s) = Some r ->
    BlobStream._current_chunk (fst s) = getitem (BLOBS (snd s)) (blob_id r).

(** A [ReadBlobs] call for the one blob of a listed reference. *)
Definition single_fetch_of (refs : list BlobReference) (ids : list BlobID)
  : Prop :=
  exists r, In r refs /\ ids = [blob_id r].

(** What a read may change: the cursor and the cache of the object, and
    the log of fetches, by single-blob fetches of listed references. *)
Record read_frame (s s' : BlobStream.t * World) : Prop := {
  frame_refs : BlobStream._blob_refs (fst s') = BlobStream._blob_refs (fst s);
  frame_hash : BlobStream._hash_id (fst s') = BlobStream._hash_id (fst s);
  frame_max : BlobStream._max_unbound_read (fst s')
              = BlobStream._max_unbound_read (fst s);
  frame_length : BlobStream._length (fst s') = BlobStream._length (fst s);
  frame_blobs : BLOBS (snd s') = BLOBS (snd s);
  frame_hash_refs : hash_blob_refs (snd s') = hash_blob_refs (snd s);
  frame_paths : path_history (snd s') = path_history (snd s);
  frame_config : max_unbound_read_size (snd s') = max_unbound_read_size (snd s);
  frame_reads : exists fetches,
      BLOBS_reads (snd s') = fetches ++ BLOBS_reads (snd s)
      /\ Forall (single_fetch_of (BlobStream._blob_refs (fst s))) fetches
}.

(** ** Sample data *)

Definition id_a : BlobID := [x61].
Definition id_b : BlobID := [x62].
Definition id_c : BlobID := [x63].
Definition foo : bytes := [x66; x6f; x6f].
Definition bar : bytes := [x62; x61; x72].

(** A world whose blob store holds [a -> "foo"] and [b -> "bar"]. *)
Definition sample_world (max_read : Z) : World :=
  {| BLOBS := [(id_a, foo); (id_b, bar)];
     BLOBS_reads := [];
     hash_blob_refs := [];
     path_history := [];
     max_unbound_read_size := max_read |}.

Definition foobar_refs : list BlobReference :=
  [ {| offset := 0; size := 3; blob_id := id_a |};
    {| offset := 3; size := 3; blob_id := id_b |} ].

(** A stream over ["foo" + "bar"], as the constructor builds it. *)
Definition foobar_stream (max_read : Z) : BlobStream.t * World :=
  ({| BlobStream._blob_refs := foobar_refs;
      BlobStream._hash_id := [];
      BlobStream._max_unbound_read := max_read;
      BlobStream._offset := 0;
      BlobStream._length := 6;
      BlobStream._current_ref := None;
      BlobStream._current_chunk := None |},
   sample_world max_read).

(** The two references of the sample file in the wrong order: neither
    sorted by offset nor contiguous. *)
Definition swapped_refs : list BlobReference :=
  [ {| offset := 3; size := 3; blob_id := id_b |};
    {| offset := 0; size := 3; blob_id := id_a |} ].

Definition tmp_x : ClientPath := "/tmp/x"%string.
(** A hash id: 32 bytes. *)
Definition hash_1 : HashID := repeat x01 32.

(** A stand-in for a digest function: 32 bytes whatever the message. *)
Definition pad32 (message : bytes) : bytes :=
  firstn 32 (message ++ repeat x00 32).

(** A world where [/tmp/x] was collected at time 5 with hash [hash_1],
    and [hash_1] is recorded with the reference list [refs]. *)
Definition collected_world (refs : list BlobReference) : World :=
  {| BLOBS := [(id_a, foo); (id_b, bar)];
     BLOBS_reads := [];
     hash_blob_refs := [(hash_1, refs)];
     path_history := [(tmp_x, {| timestamp := 5; hash_entry_sha256 := hash_1 |})];
     max_unbound_read_size := 10 |}.

(** A store that appends its tag to a log, and one that refuses. *)
Definition logging_store (tag : nat)
  : CompositeExternalFileStore.ExternalFileStore (list nat) :=
  fun _ _ log => (Ok tt, log ++ [tag]).

Definition refusing_store
  : CompositeExternalFileStore.ExternalFileStore (list nat) :=
  fun file_hash _ log => (Raise (MissingBlobReferences file_hash), log).

(** The blob store of the samples with the blob of [b] lost. *)
Definition lossy_stream : BlobStream.t * World :=
  (fst (foobar_stream 10),
   {| BLOBS := [(id_a, foo)];
      BLOBS_reads := [];
      hash_blob_refs := [];
      path_history := [];
      max_unbound_read_size := 10 |}).

(** A world with no blob, where [/tmp/x] is bound to the digest of the
    empty message. *)
Definition bound_to_empty_hash : World :=
  {| BLOBS := [];
     BLOBS_reads := [];
     hash_blob_refs := [];
     path_history :=
       [(tmp_x, {| timestamp := 5; hash_entry_sha256 := pad32 [] |})];
     max_unbound_read_size := 10 |}.

(** A world holding the two sample blobs, where [/tmp/x] is bound to the
    digest of the message foobar. *)
Definition bound_to_foobar : World :=
  {| BLOBS := [(id_a, foo); (id_b, bar)];
     BLOBS_reads := [];
     hash_blob_refs := [];
     path_history :=
       [(tmp_x,
         {| timestamp := 5; hash_entry_sha256 := pad32 (foo ++ bar) |})];
     max_unbound_read_size := 10 |}.

(** * Properties *)

(** ** Equalities and dict lookups *)

Lemma bytes_eqb_refl (a : bytes) : bytes_eqb a a = true.
Proof.
  induction a as [|x a IH]; simpl; [reflexivity|].
  rewrite IH, andb_true_r. now apply byte_dec_lb.
Qed.

Lemma bytes_eqb_eq (a b : bytes) : bytes_eqb a b = true -> a = b.
Proof.
  revert b; induction a as [|x a IH]; intros [|y b]; simpl;
    try discriminate; [reflexivity|].
  intros H. apply andb_true_iff in H as [Hx Hab].
  apply byte_dec_bl in Hx. f_equal; auto.
Qed.

Lemma BlobReference_eqb_eq (r1 r2 : BlobReference) :
  BlobReference_eqb r1 r2 = true -> r1 = r2.
Proof.
  unfold BlobReference_eqb. destruct r1, r2; simpl.
  rewrite !andb_true_iff. intros [[Ho Hs] Hb].
  apply Z.eqb_eq in Ho, Hs. apply bytes_eqb_eq in Hb. congruence.
Qed.

Lemma getitem_ReadBlobs_In (blobs : list (BlobID * bytes)) (ids : list BlobID)
  (k : BlobID) :
  In k ids ->
  getitem (map (fun k => (k, getitem blobs k)) ids) k = Some (getitem blobs k).
Proof.
  induction ids as [|k' ids IH]; simpl; [tauto|].
  intros Hin. destruct (bytes_eqb k' k) eqn:E.
  - apply bytes_eqb_eq in E. now subst.
  - destruct Hin as [->|Hin]; [now rewrite bytes_eqb_refl in E | auto].
Qed.

(** ** Sizes of contiguous lists *)

Lemma total_size_app (l1 l2 : list BlobReference) :
  total_size (l1 ++ l2) = total_size l1 + total_size l2.
Proof. induction l1 as [|r l1 IH]; simpl; [reflexivity | rewrite IH; lia]. Qed.

Lemma logical_file_app blobs (l1 l2 : list BlobReference) :
  logical_file blobs (l1 ++ l2) = logical_file blobs l1 ++ logical_file blobs l2.
Proof. unfold logical_file. now rewrite map_app, concat_app. Qed.

Lemma chunk_of_stored blobs r :
  stored blobs r -> Z.of_nat (List.length (chunk_of blobs r)) = size r.
Proof. intros (b & Hb & Hlen). unfold chunk_of. now rewrite Hb. Qed.

Lemma logical_file_length blobs refs :
  Forall (stored blobs) refs ->
  Z.of_nat (List.length (logical_file blobs refs)) = total_size refs.
Proof.
  induction 1 as [|r refs Hr _ IH]; [reflexivity|].
  unfold logical_file in *; simpl. rewrite length_app, Nat2Z.inj_add, IH.
  now rewrite (chunk_of_stored Hr).
Qed.

Lemma total_size_nonneg start refs :
  contiguous_from start refs -> 0 <= total_size refs.
Proof.
  revert start; induction refs as [|r refs IH]; simpl; intros start; [lia|].
  intros (_ & Hs & Hc). specialize (IH _ Hc). lia.
Qed.

Lemma contiguous_last start refs l :
  contiguous_from start refs -> last_item refs = Some l ->
  offset l + size l = start + total_size refs.
Proof.
  revert start; induction refs as [|r refs IH]; intros start; [discriminate|].
  intros (Ho & Hs & Hc) Hl. destruct refs as [|r' refs].
  - simpl in *. injection Hl as <-. lia.
  - change (last_item (r' :: refs) = Some l) in Hl.
    rewrite (IH _ Hc Hl). simpl. lia.
Qed.

(** ** The chunk locator on a contiguous list *)

Lemma find_covers start refs c :
  contiguous_from start refs -> start <= c ->
  match find (BlobStream.covers c) refs with
  | Some r =>
      exists pre post,
        refs = pre ++ r :: post
        /\ offset r = start + total_size pre
        /\ offset r <= c < offset r + size r
  | None => start + total_size refs <= c
  end.
Proof.
  revert start; induction refs as [|r refs IH]; intros start; simpl; [lia|].
  intros (Ho & Hs & Hc) Hle.
  unfold BlobStream.covers at 1. rewrite Z.geb_leb.
  destruct (Z.ltb_spec c (offset r + size r)) as [E|E].
  - destruct (Z.leb_spec (offset r) c); [|lia].
    simpl. exists [], refs. simpl. repeat split; lia.
  - rewrite andb_false_r.
    specialize (IH _ Hc). destruct (find (BlobStream.covers c) refs) as [r'|].
    + destruct IH as (pre & post & -> & Ho' & Hr'); [lia|].
      exists (r :: pre), post. simpl. repeat split; lia.
    + lia.
Qed.

Lemma skipn_logical_file blobs pre r post c :
  Forall (stored blobs) (pre ++ r :: post) ->
  offset r = total_size pre ->
  offset r <= c <= offset r + size r ->
  skipn (Z.to_nat c) (logical_file blobs (pre ++ r :: post))
  = skipn (Z.to_nat (c - offset r)) (chunk_of blobs r)
    ++ logical_file blobs post.
Proof.
  intros Hst Ho Hc.
  apply Forall_app in Hst as [Hpre Hrp]. inversion Hrp as [|? ? Hr Hpost]; subst.
  pose proof (logical_file_length Hpre) as Lpre.
  pose proof (chunk_of_stored Hr) as Lr.
  rewrite logical_file_app.
  change (logical_file blobs (r :: post))
    with (chunk_of blobs r ++ logical_file blobs post).
  rewrite skipn_app, skipn_all2 by lia. simpl.
  rewrite skipn_app.
  replace (Z.to_nat c - List.length (logical_file blobs pre))%nat
    with (Z.to_nat (c - offset r)) by lia.
  replace (Z.to_nat (c - offset r) - List.length (chunk_of blobs r))%nat
    with 0%nat by lia.
  reflexivity.
Qed.

Lemma skipn_logical_file_end blobs refs c :
  Forall (stored blobs) refs -> total_size refs <= c ->
  skipn (Z.to_nat c) (logical_file blobs refs) = [].
Proof.
  intros Hst Hc. apply skipn_all2.
  pose proof (logical_file_length Hst). lia.
Qed.

(** ** [_GetChunk] *)

Section Stream.

Variable blobs : list (BlobID * bytes).
Variable refs : list BlobReference.
Hypothesis refs_contiguous : contiguous_from 0 refs.
Hypothesis refs_stored : Forall (stored blobs) refs.

Lemma stream_over_with_offset s off :
  stream_over blobs refs s ->
  stream_over blobs refs (BlobStream.with_offset (fst s) off, snd s).
Proof. intros [H1 H2 H3 H4]. constructor; simpl; auto. Qed.

(** Past the last reference the locator finds nothing and the object
    is left alone. *)
Lemma _GetChunk_end s :
  stream_over blobs refs s -> total_size refs <= BlobStream._offset (fst s) ->
  BlobStream._GetChunk s = (Ok (None, None), s).
Proof.
  intros Hs Hc. unfold BlobStream._GetChunk, bind, BlobStream.self. simpl.
  rewrite (over_refs Hs).
  pose proof (total_size_nonneg _ _ refs_contiguous) as Hn.
  pose proof (@find_covers 0 refs (BlobStream._offset (fst s)) refs_contiguous) as Hf.
  destruct (find (BlobStream.covers (BlobStream._offset (fst s))) refs) as [r|]; [|reflexivity].
  destruct Hf as (pre & post & -> & Ho & Hr); [lia|].
  apply total_size_nonneg in refs_contiguous as Hn'.
  rewrite total_size_app in Hc. simpl in Hc.
  assert (0 <= total_size post); [|lia].
  clear -refs_stored. apply Forall_app in refs_stored as [_ H].
  inversion H as [|? ? _ Hp]; subst. rewrite <- (logical_file_length Hp). lia.
Qed.

(** Inside the file the locator returns the covering reference with the
    bytes of its blob, from the cache or from the store. *)
Lemma _GetChunk_found s r :
  stream_over blobs refs s ->
  find (BlobStream.covers (BlobStream._offset (fst s))) refs = Some r ->
  exists s',
    BlobStream._GetChunk s = (Ok (getitem blobs (blob_id r), Some r), s')
    /\ stream_over blobs refs s'
    /\ BlobStream._offset (fst s') = BlobStream._offset (fst s)
    /\ BlobStream._max_unbound_read (fst s') = BlobStream._max_unbound_read (fst s).
Proof.
  intros Hs Hf. destruct s as [o w]. destruct Hs as [H1 H2 H3 H4].
  simpl in *. unfold BlobStream._GetChunk, bind, BlobStream.self. simpl. rewrite H1, Hf.
  destruct (BlobStream._current_ref o) as [cur|] eqn:Ecur; simpl.
  - destruct (BlobReference_eqb cur r) eqn:E; simpl.
    + apply BlobReference_eqb_eq in E. subst cur.
      exists (o, w). rewrite Ecur, (H4 _ eq_refl).
      repeat split; simpl; auto. now rewrite Ecur.
    + unfold in_world, ReadBlobs, getitem_or_raise. simpl.
      rewrite bytes_eqb_refl. simpl. rewrite H2.
      eexists. split; [reflexivity|].
      repeat split; simpl; auto. now intros r' [= <-].
  - unfold in_world, ReadBlobs, getitem_or_raise. simpl.
    rewrite bytes_eqb_refl. simpl. rewrite H2.
    eexists. split; [reflexivity|].
    repeat split; simpl; auto. now intros r' [= <-].
Qed.

(** ** The read loop *)

Lemma firstn_prefix_enough (length : Z) (acc rest : bytes) :
  length <= Z.of_nat (List.length acc) ->
  firstn (Z.to_nat length) acc = firstn (Z.to_nat length) (acc ++ rest).
Proof.
  intros H. rewrite firstn_app.
  replace (Z.to_nat length - List.length acc)%nat with 0%nat by lia.
  simpl. now rewrite app_nil_r.
Qed.

Lemma Read_loop_done fuel length acc s :
  length <= Z.of_nat (List.length acc) ->
  BlobStream.Read_loop fuel length acc s = Some (Ok acc, s).
Proof.
  intros H. destruct fuel; simpl;
    destruct (Z.ltb_spec (Z.of_nat (List.length acc)) length);
    try lia; reflexivity.
Qed.

(** The loop gathers the bytes from the cursor on: when it stops, the
    first [length] bytes of what it gathered are the first [length]
    bytes of the file from the cursor.  It stops within [length]
    iterations, less one for every byte already gathered. *)
Lemma Read_loop_spec fuel : forall length acc s,
  stream_over blobs refs s ->
  0 <= BlobStream._offset (fst s) ->
  length - Z.of_nat (List.length acc) <= Z.of_nat fuel ->
  exists res s',
    BlobStream.Read_loop fuel length acc s = Some (Ok res, s')
    /\ stream_over blobs refs s'
    /\ BlobStream._max_unbound_read (fst s') = BlobStream._max_unbound_read (fst s)
    /\ firstn (Z.to_nat length) res
       = firstn (Z.to_nat length)
           (acc ++ skipn (Z.to_nat (BlobStream._offset (fst s)))
                         (logical_file blobs refs)).
Proof.
  induction fuel as [|fuel IH]; intros length acc s Hs Hc Hfuel.
  - rewrite Read_loop_done by lia. exists acc, s.
    split; [reflexivity|]. split; [assumption|]. split; [reflexivity|].
    apply firstn_prefix_enough; lia.
  - destruct (Z.ltb_spec (Z.of_nat (List.length acc)) length) as [Hlt|Hge].
    2:{ rewrite Read_loop_done by lia. exists acc, s.
        split; [reflexivity|]. split; [assumption|]. split; [reflexivity|].
        apply firstn_prefix_enough; lia. }
    cbn [BlobStream.Read_loop]. destruct (Z.ltb_spec (Z.of_nat (List.length acc)) length);
      [|lia].
    pose proof (@find_covers 0 refs (BlobStream._offset (fst s)) refs_contiguous Hc) as Hf.
    destruct (find (BlobStream.covers (BlobStream._offset (fst s))) refs) as [r|] eqn:Efind.
    + destruct Hf as (pre & post & Erefs & Ho & Hr).
      destruct (_GetChunk_found Hs Efind) as (s1 & -> & Hs1 & Hoff1 & Hmax1).
      assert (Hst : stored blobs r).
      { rewrite Forall_forall in refs_stored. apply refs_stored.
        rewrite Erefs. apply in_or_app. right. now left. }
      pose proof (chunk_of_stored Hst) as Hlen.
      destruct Hst as (b & Hb & Hblen).
      unfold chunk_of in Hlen. rewrite Hb in Hlen |- *.
      assert (Hskip : skipn (Z.to_nat (BlobStream._offset (fst s))) (logical_file blobs refs)
                      = skipn (Z.to_nat (BlobStream._offset (fst s) - offset r)) b
                        ++ logical_file blobs post).
      { rewrite Erefs, skipn_logical_file; try lia.
        - unfold chunk_of. now rewrite Hb.
        - now rewrite <- Erefs. }
      destruct b as [|x b]; [simpl in Hlen; lia|].
      cbn [BlobStream.truthy]. unfold slice_from. rewrite Hoff1.
      destruct (Z.leb_spec 0 (BlobStream._offset (fst s) - offset r)); [|lia].
      set (part := skipn (Z.to_nat (BlobStream._offset (fst s) - offset r)) (x :: b)) in *.
      assert (Hpart : Z.of_nat (List.length part)
                      = offset r + size r - BlobStream._offset (fst s)).
      { unfold part. rewrite length_skipn. lia. }
      destruct part as [|y part'] eqn:Epart; [simpl in Hpart; lia|].
      rewrite <- Epart in *. clear Epart.
      destruct (Z.le_gt_cases (Z.of_nat (List.length part)) length) as [Hfit|Hcut].
      * (* the whole part fits: the cursor moves to the end of the chunk *)
        rewrite Z.min_r by lia.
        destruct (IH length (acc ++ part)
                    (BlobStream.with_offset (fst s1)
                       (BlobStream._offset (fst s) + Z.of_nat (List.length part)), snd s1))
          as (res & s' & Eloop & Hs' & Hmax' & Hres).
        { now apply stream_over_with_offset. }
        { simpl. lia. }
        { rewrite length_app. lia. }
        exists res, s'. rewrite Eloop.
        split; [reflexivity|]. split; [assumption|].
        split; [rewrite Hmax'; simpl; auto|].
        rewrite Hres, Hskip. simpl fst. cbn [BlobStream._offset BlobStream.with_offset].
        replace (BlobStream._offset (fst s) + Z.of_nat (List.length part))
          with (offset r + size r) by lia.
        rewrite Erefs, skipn_logical_file; try lia.
        2:{ now rewrite <- Erefs. }
        unfold chunk_of. rewrite Hb.
        rewrite (skipn_all2 (x :: b)) by lia.
        now rewrite <- app_assoc.
      * (* more than asked for: the loop ends at the next test *)
        rewrite Read_loop_done by (rewrite length_app; lia).
        eexists _, _. split; [reflexivity|]. split.
        { now apply stream_over_with_offset. }
        split; [simpl; auto|].
        rewrite Hskip, app_assoc.
        apply firstn_prefix_enough. rewrite length_app. lia.
    + rewrite (_GetChunk_end Hs) by lia. cbn [BlobStream.truthy].
      exists acc, s.
      split; [reflexivity|]. split; [assumption|]. split; [reflexivity|].
      rewrite skipn_logical_file_end by (auto; lia). now rewrite app_nil_r.
Qed.

(** ** [Read], [Seek] and the constructor *)

(** A read within the ceiling, from a cursor at or after the start of
    the file, terminates and returns the bytes at [[cursor, cursor + n)],
    cut at the end of the file. *)
Lemma Read_bytes_at n s :
  stream_over blobs refs s ->
  0 <= BlobStream._offset (fst s) ->
  n <= BlobStream._max_unbound_read (fst s) ->
  exists s',
    BlobStream.Read (Some n) s
    = Some (Ok (bytes_at (logical_file blobs refs)
                  (BlobStream._offset (fst s)) n), s')
    /\ stream_over blobs refs s'
    /\ BlobStream._max_unbound_read (fst s')
       = BlobStream._max_unbound_read (fst s).
Proof.
  intros Hs Hc Hn. unfold BlobStream.Read.
  destruct (Z.gtb_spec n (BlobStream._max_unbound_read (fst s))); [lia|].
  destruct (Z.le_gt_cases n 0) as [Hneg|Hpos].
  - rewrite Read_loop_done by (simpl; lia).
    exists s. split; [|auto]. unfold slice_to, bytes_at.
    replace (Z.to_nat n) with 0%nat by lia.
    simpl. rewrite ?firstn_nil. now destruct (0 <=? n).
  - destruct (@Read_loop_spec (Z.to_nat n) n [] s Hs Hc) as
      (res & s' & -> & Hs' & Hmax & Hres); [simpl; lia|].
    exists s'. split; [|auto]. unfold slice_to, bytes_at.
    destruct (Z.leb_spec 0 n); [|lia]. now rewrite Hres.
Qed.

(** At or past the end of the file a read returns nothing and leaves
    the object as it is. *)
Lemma Read_at_end n s :
  stream_over blobs refs s ->
  total_size refs <= BlobStream._offset (fst s) ->
  n <= BlobStream._max_unbound_read (fst s) ->
  BlobStream.Read (Some n) s = Some (Ok [], s).
Proof.
  intros Hs Hc Hn. unfold BlobStream.Read.
  destruct (Z.gtb_spec n (BlobStream._max_unbound_read (fst s))); [lia|].
  assert (E : BlobStream.Read_loop (Z.to_nat n) n [] s = Some (Ok [], s)).
  { destruct (Z.le_gt_cases n 0) as [Hneg|Hpos].
    - apply Read_loop_done. simpl. lia.
    - destruct (Z.to_nat n) as [|fuel] eqn:En; [lia|].
      cbn [BlobStream.Read_loop]. simpl List.length.
      destruct (Z.ltb_spec (Z.of_nat 0) n); [|lia].
      now rewrite (_GetChunk_end Hs Hc). }
  rewrite E. unfold slice_to. simpl. rewrite !firstn_nil.
  now destruct (0 <=? n).
Qed.

Lemma Seek_stream_over off whence s :
  stream_over blobs refs s ->
  stream_over blobs refs (snd (BlobStream.Seek off whence s)).
Proof.
  intros Hs. unfold BlobStream.Seek, bind, BlobStream.self,
    BlobStream.set_self, raise. simpl.
  destruct (whence =? SEEK_SET); [|destruct (whence =? SEEK_CUR);
    [|destruct (whence =? SEEK_END)]]; simpl;
    try (now apply stream_over_with_offset).
  now destruct s.
Qed.

(** The constructor builds a stream over its list. *)
Lemma init_stream_over h w o w' :
  BLOBS w = blobs ->
  BlobStream.__init__ refs h w = (Ok o, w') ->
  stream_over blobs refs (o, w')
  /\ w' = w
  /\ BlobStream._offset o = 0
  /\ BlobStream._max_unbound_read o = max_unbound_read_size w.
Proof.
  intros Hb. unfold BlobStream.__init__, bind, get, ret, raise. simpl.
  destruct (last_item refs) as [l|] eqn:El; [|discriminate].
  intros [= <- <-]. repeat split; simpl; auto; try discriminate.
  rewrite (@contiguous_last _ _ _ refs_contiguous El). lia.
Qed.

End Stream.

(** ** Termination of [Read] on any stream *)

Lemma _GetChunk_returns (s : BlobStream.t * World) :
  exists x s', BlobStream._GetChunk s = (Ok x, s').
Proof.
  unfold BlobStream._GetChunk, bind, BlobStream.self. simpl.
  destruct (find _ _) as [r|]; [|eexists _, _; reflexivity].
  destruct (current_ref_neq _ r); simpl; [|eexists _, _; reflexivity].
  unfold in_world, ReadBlobs, getitem_or_raise. simpl.
  rewrite bytes_eqb_refl. simpl. eexists _, _; reflexivity.
Qed.

(** Every iteration that does not leave the loop writes at least one
    byte, so [length] iterations, less the bytes already written, are
    enough; and nothing in the loop raises. *)
Lemma Read_loop_terminates (fuel : nat) : forall length acc s,
  length - Z.of_nat (List.length acc) <= Z.of_nat fuel ->
  exists res s', BlobStream.Read_loop fuel length acc s = Some (Ok res, s').
Proof.
  induction fuel as [|fuel IH]; intros length acc s Hfuel.
  - rewrite Read_loop_done by lia. eauto.
  - cbn [BlobStream.Read_loop].
    destruct (Z.ltb_spec (Z.of_nat (List.length acc)) length); [|eauto].
    destruct (_GetChunk_returns s) as ([chunk ref] & s1 & ->).
    destruct (BlobStream.truthy chunk) as [b|]; [|eauto].
    destruct ref as [ref|]; [|eauto].
    destruct (slice_from b _) as [|y part]; [eauto|].
    apply IH. rewrite length_app. simpl List.length. lia.
Qed.

Lemma Read_returns (n : Z) (s : BlobStream.t * World) :
  n <= BlobStream._max_unbound_read (fst s) ->
  exists data s', BlobStream.Read (Some n) s = Some (Ok data, s').
Proof.
  intros Hn. unfold BlobStream.Read.
  destruct (Z.gtb_spec n (BlobStream._max_unbound_read (fst s))); [lia|].
  destruct (@Read_loop_terminates (Z.to_nat n) n [] s) as (res & s' & ->);
    [simpl; lia | eauto].
Qed.

(** ** The sample stream *)

Lemma foobar_contiguous : contiguous_from 0 foobar_refs.
Proof. simpl. lia. Qed.

Lemma foobar_stored : Forall (stored [(id_a, foo); (id_b, bar)]) foobar_refs.
Proof.
  repeat constructor; [exists foo | exists bar]; split; reflexivity.
Qed.

Lemma foobar_stream_over (max_read : Z) :
  stream_over [(id_a, foo); (id_b, bar)] foobar_refs (foobar_stream max_read).
Proof. constructor; simpl; try reflexivity. discriminate. Qed.

(** * The stream reader *)

(** C3 (read/seek round trip).  On a stream over a contiguous reference
    list of total size N, each blob being in the store with the size its
    reference records, for every k with
    0 <= k <= N and N - k within the read ceiling, [Seek(k, SEEK_SET)]
    followed by [Read(N - k)] returns exactly the bytes at positions
    [[k, N)] of the concatenation of the chunks: the file with its first
    k bytes dropped, N - k bytes in all. *)
Theorem C3_seek_read_roundtrip blobs refs s k :
  contiguous_from 0 refs ->
  Forall (stored blobs) refs ->
  stream_over blobs refs s ->
  0 <= k <= total_size refs ->
  total_size refs - k <= BlobStream._max_unbound_read (fst s) ->
  exists s1 s2,
    BlobStream.Seek k SEEK_SET s = (Ok tt, s1)
    /\ BlobStream.Read (Some (total_size refs - k)) s1
       = Some (Ok (skipn (Z.to_nat k) (logical_file blobs refs)), s2)
    /\ Z.of_nat (List.length (skipn (Z.to_nat k) (logical_file blobs refs)))
       = total_size refs - k.
Proof.
  intros Hc Hst Hs Hk Hmax.
  pose proof (logical_file_length Hst) as Hlen.
  exists (BlobStream.with_offset (fst s) k, snd s).
  destruct (@Read_bytes_at blobs refs Hc Hst (total_size refs - k)
              (BlobStream.with_offset (fst s) k, snd s))
    as (s2 & E & _); simpl; try lia.
  { now apply stream_over_with_offset. }
  exists s2. split; [reflexivity|]. split.
  - rewrite E. unfold bytes_at. simpl. rewrite firstn_all2; [reflexivity|].
    rewrite length_skipn. lia.
  - rewrite length_skipn. lia.
Qed.

Lemma C3_seek_read_roundtrip_witness :
  exists s1 s2,
    BlobStream.Seek 2 SEEK_SET (foobar_stream 10) = (Ok tt, s1)
    /\ BlobStream.Read (Some (total_size foobar_refs - 2)) s1
       = Some (Ok (skipn (Z.to_nat 2)
                     (logical_file [(id_a, foo); (id_b, bar)] foobar_refs)),
               s2)
    /\ Z.of_nat (List.length
                   (skipn (Z.to_nat 2)
                      (logical_file [(id_a, foo); (id_b, bar)] foobar_refs)))
       = total_size foobar_refs - 2.
Proof.
  apply (@C3_seek_read_roundtrip [(id_a, foo); (id_b, bar)] foobar_refs
           (foobar_stream 10) 2).
  - exact foobar_contiguous.
  - exact foobar_stored.
  - exact (foobar_stream_over 10).
  - simpl; lia.
  - simpl; lia.
Defined.

(** C4 (cursor after a read), evaluated where it fails.  On the stream
    over "foo" + "bar" with the cursor at 0, [Read(4)] returns the four
    bytes "foob", but [Tell()] afterwards is 6, not 4: the cursor was
    advanced by [min(length, len(part))] for each of the two chunks.  The
    next [Read(2)] then returns nothing instead of "ar". *)
Theorem C4_read_across_chunks_overshoots :
  exists s1,
    BlobStream.Read (Some 4) (foobar_stream 10)
    = Some (Ok [x66; x6f; x6f; x62], s1)
    /\ BlobStream._offset (fst (foobar_stream 10)) = 0
    /\ BlobStream.Tell s1 = (Ok 6, s1)
    /\ BlobStream.Read (Some 2) s1 = Some (Ok [], s1).
Proof.
  eexists. split; [vm_compute; reflexivity|].
  repeat split; vm_compute; reflexivity.
Qed.

(** C6 (oversized-read guard).  With M the ceiling the stream was built
    with: [Read(M + 1)] raises [OversizedRead] and leaves the object and
    the world as they were, so no [ReadBlobs] call is made; [Read(M)]
    returns; and [Read()] is [Read(size - cursor)], so it raises
    [OversizedRead] when what remains of the file exceeds M. *)
Theorem C6_oversized_read_guard (s : BlobStream.t * World) :
  let M := BlobStream._max_unbound_read (fst s) in
  let remaining := BlobStream._length (fst s) - BlobStream._offset (fst s) in
  BlobStream.Read (Some (M + 1)) s = Some (Raise (OversizedRead (M + 1) M), s)
  /\ (exists data s', BlobStream.Read (Some M) s = Some (Ok data, s'))
  /\ BlobStream.Read None s = BlobStream.Read (Some remaining) s
  /\ (remaining > M ->
      BlobStream.Read None s = Some (Raise (OversizedRead remaining M), s)).
Proof.
  intros M remaining. split; [|split; [|split]].
  - unfold BlobStream.Read. fold M.
    destruct (Z.gtb_spec (M + 1) M); [reflexivity | lia].
  - apply Read_returns. fold M. lia.
  - reflexivity.
  - intros Hrem. unfold BlobStream.Read. fold M remaining.
    destruct (Z.gtb_spec remaining M); [reflexivity | lia].
Qed.

Lemma C6_oversized_read_guard_witness :
  6 > 4
  /\ BlobStream.Read None (foobar_stream 4)
     = Some (Raise (OversizedRead 6 4), foobar_stream 4).
Proof.
  split; [lia|].
  apply (C6_oversized_read_guard (foobar_stream 4)). simpl. lia.
Defined.

(** C7 (end-of-stream truncation).  On a stream over a contiguous list of
    total size N, each blob being in the store with the size its reference
    records, with the cursor at 0, [Read(N + 100)], when within the
    ceiling, returns exactly the N bytes of the file and raises nothing.
    More generally a read from cursor c >= 0 asking for at least the
    N - c bytes that remain returns just those bytes. *)
Theorem C7_read_past_end_truncates blobs refs s :
  contiguous_from 0 refs ->
  Forall (stored blobs) refs ->
  stream_over blobs refs s ->
  (BlobStream._offset (fst s) = 0 ->
   total_size refs + 100 <= BlobStream._max_unbound_read (fst s) ->
   exists s',
     BlobStream.Read (Some (total_size refs + 100)) s
     = Some (Ok (logical_file blobs refs), s')
     /\ Z.of_nat (List.length (logical_file blobs refs)) = total_size refs)
  /\ (forall n,
        0 <= BlobStream._offset (fst s) ->
        total_size refs - BlobStream._offset (fst s) <= n ->
        n <= BlobStream._max_unbound_read (fst s) ->
        exists s',
          BlobStream.Read (Some n) s
          = Some (Ok (skipn (Z.to_nat (BlobStream._offset (fst s)))
                        (logical_file blobs refs)), s')).
Proof.
  intros Hc Hst Hs.
  pose proof (logical_file_length Hst) as Hlen.
  assert (G : forall n,
             0 <= BlobStream._offset (fst s) ->
             total_size refs - BlobStream._offset (fst s) <= n ->
             n <= BlobStream._max_unbound_read (fst s) ->
             exists s',
               BlobStream.Read (Some n) s
               = Some (Ok (skipn (Z.to_nat (BlobStream._offset (fst s)))
                             (logical_file blobs refs)), s')).
  { intros n H0 Hn Hmax.
    destruct (@Read_bytes_at blobs refs Hc Hst n s Hs H0 Hmax) as (s' & E & _).
    exists s'. rewrite E. unfold bytes_at. rewrite firstn_all2; [reflexivity|].
    rewrite length_skipn. lia. }
  split; [|exact G].
  intros H0 Hmax. destruct (G (total_size refs + 100)) as (s' & E); try lia.
  exists s'. rewrite E, H0. simpl. auto.
Qed.

Lemma C7_read_past_end_truncates_witness :
  (exists s',
     BlobStream.Read (Some (total_size foobar_refs + 100)) (foobar_stream 200)
     = Some (Ok (logical_file [(id_a, foo); (id_b, bar)] foobar_refs), s')
     /\ Z.of_nat (List.length
                    (logical_file [(id_a, foo); (id_b, bar)] foobar_refs))
        = total_size foobar_refs)
  /\ (exists s',
        BlobStream.Read (Some 9) (foobar_stream 200)
        = Some (Ok (skipn (Z.to_nat 0)
                      (logical_file [(id_a, foo); (id_b, bar)] foobar_refs)),
                s')).
Proof.
  destruct (@C7_read_past_end_truncates [(id_a, foo); (id_b, bar)] foobar_refs
              (foobar_stream 200) foobar_contiguous foobar_stored
              (foobar_stream_over 200)) as [Hfull Hgen].
  split.
  - apply Hfull; [reflexivity | simpl; lia].
  - apply (Hgen 9); simpl; lia.
Defined.

(** C8, as the claim states it, fails: [Seek(-1, SEEK_SET)] does not
    raise; it returns and leaves the cursor at -1. *)
Lemma C8_counterexample :
  exists s',
    BlobStream.Seek (-1) SEEK_SET (foobar_stream 10) = (Ok tt, s')
    /\ BlobStream.Tell s' = (Ok (-1), s').
Proof. eexists. split; reflexivity. Qed.

(** C8, amended.  [Seek] makes no range check: with a recognised whence
    it always returns, leaving the cursor at [offset], [cursor + offset]
    or [size + offset], negative or not.  A seek that leaves the cursor
    at or beyond the total size of a stream over a contiguous list is
    legal, and every read after it (of a length within the ceiling, or
    with no length when the ceiling is not negative) returns no bytes
    and leaves the cursor where it is. *)
Theorem C8_seek_is_unchecked (s : BlobStream.t * World) (off : Z) :
  BlobStream.Seek off SEEK_SET s
  = (Ok tt, (BlobStream.with_offset (fst s) off, snd s))
  /\ BlobStream.Seek off SEEK_CUR s
     = (Ok tt, (BlobStream.with_offset (fst s)
                  (BlobStream._offset (fst s) + off), snd s))
  /\ BlobStream.Seek off SEEK_END s
     = (Ok tt, (BlobStream.with_offset (fst s)
                  (BlobStream.size (fst s) + off), snd s))
  /\ (forall o w target,
        BlobStream.Tell (BlobStream.with_offset o target, w)
        = (Ok target, (BlobStream.with_offset o target, w)))
  /\ (forall blobs refs whence s',
        contiguous_from 0 refs ->
        Forall (stored blobs) refs ->
        stream_over blobs refs s ->
        BlobStream.Seek off whence s = (Ok tt, s') ->
        total_size refs <= BlobStream._offset (fst s') ->
        (forall n,
           n <= BlobStream._max_unbound_read (fst s') ->
           BlobStream.Read (Some n) s' = Some (Ok [], s'))
        /\ (0 <= BlobStream._max_unbound_read (fst s') ->
            BlobStream.Read None s' = Some (Ok [], s'))).
Proof.
  split; [reflexivity|]. split; [reflexivity|]. split; [reflexivity|].
  split; [reflexivity|].
  intros blobs refs whence s' Hc Hst Hs Hseek Hend.
  assert (Hs' : stream_over blobs refs s').
  { pose proof (@Seek_stream_over blobs refs off whence s Hs) as H.
    now rewrite Hseek in H. }
  split.
  - intros n Hn. now apply (@Read_at_end blobs refs Hc Hst).
  - intros HM.
    change (BlobStream.Read None s')
      with (BlobStream.Read
              (Some (BlobStream._length (fst s') - BlobStream._offset (fst s')))
              s').
    apply (@Read_at_end blobs refs Hc Hst); auto.
    rewrite (over_length Hs'). lia.
Qed.

Lemma C8_seek_is_unchecked_witness :
  BlobStream.Seek 7 SEEK_SET (foobar_stream 10)
  = (Ok tt, (BlobStream.with_offset (fst (foobar_stream 10)) 7,
             snd (foobar_stream 10)))
  /\ BlobStream.Read (Some 3)
       (BlobStream.with_offset (fst (foobar_stream 10)) 7,
        snd (foobar_stream 10))
     = Some (Ok [], (BlobStream.with_offset (fst (foobar_stream 10)) 7,
                     snd (foobar_stream 10))).
Proof.
  destruct (C8_seek_is_unchecked (foobar_stream 10) 7)
    as (Hset & _ & _ & _ & Hread).
  split; [exact Hset|].
  destruct (Hread [(id_a, foo); (id_b, bar)] foobar_refs SEEK_SET _
              foobar_contiguous foobar_stored (foobar_stream_over 10) Hset)
    as [Hn _].
  - simpl; lia.
  - apply Hn. simpl; lia.
Defined.

(** * The constructor *)

(** C5, as the claim states it, fails: a list that is neither sorted by
    offset nor contiguous is accepted, and a reader is produced. *)
Lemma C5_counterexample :
  valid_reference_list swapped_refs = false
  /\ exists o,
       BlobStream.__init__ swapped_refs hash_1 (sample_world 10)
       = (Ok o, sample_world 10).
Proof. split; [reflexivity|]. eexists. reflexivity. Qed.

Lemma init_returns_on_nonempty refs h w :
  refs <> [] ->
  exists o,
    BlobStream.__init__ refs h w = (Ok o, w)
    /\ BlobStream._blob_refs o = refs
    /\ BlobStream._offset o = 0.
Proof.
  intros Hne. unfold BlobStream.__init__, bind, get, ret. simpl.
  destruct (last_item refs) as [l|] eqn:El.
  - eexists. split; [reflexivity|]. split; reflexivity.
  - exfalso. apply Hne. clear -El.
    induction refs as [|r refs IH]; [reflexivity|].
    destruct refs; [discriminate|]. now specialize (IH El).
Qed.

(** C5, amended.  The constructor makes no check of the reference list.
    It fails only on the empty list, with the [IndexError] of indexing
    its last element; every non-empty list, sorted and contiguous or
    not, produces a reader over that list with the cursor at 0. *)
Theorem C5_init_fails_only_on_empty refs h w :
  (refs = [] -> BlobStream.__init__ refs h w = (Raise IndexError, w))
  /\ (refs <> [] ->
      exists o,
        BlobStream.__init__ refs h w = (Ok o, w)
        /\ BlobStream._blob_refs o = refs
        /\ BlobStream._offset o = 0).
Proof.
  split.
  - intros ->. reflexivity.
  - apply init_returns_on_nonempty.
Qed.

Lemma C5_init_fails_only_on_empty_witness :
  BlobStream.__init__ [] hash_1 (sample_world 10)
  = (Raise IndexError, sample_world 10)
  /\ exists o,
       BlobStream.__init__ swapped_refs hash_1 (sample_world 10)
       = (Ok o, sample_world 10)
       /\ BlobStream._blob_refs o = swapped_refs
       /\ BlobStream._offset o = 0.
Proof.
  split.
  - apply (C5_init_fails_only_on_empty [] hash_1 (sample_world 10)).
    reflexivity.
  - apply (C5_init_fails_only_on_empty swapped_refs hash_1 (sample_world 10)).
    discriminate.
Defined.

(** C10.  Constructing a stream with an empty reference list always
    raises, and what it raises is the built-in [IndexError] of
    [self._blob_refs[-1]].  So every stream that was constructed holds a
    non-empty list, and its [size] is the last reference's offset plus
    its size. *)
Theorem C10_constructed_stream_is_nonempty :
  (forall h w, BlobStream.__init__ [] h w = (Raise IndexError, w))
  /\ (forall refs h w o w',
        BlobStream.__init__ refs h w = (Ok o, w') ->
        BlobStream._blob_refs o = refs
        /\ refs <> []
        /\ exists l,
             last_item refs = Some l
             /\ BlobStream.size o = offset l + size l).
Proof.
  split; [reflexivity|].
  intros refs h w o w'. unfold BlobStream.__init__, bind, get, ret, raise.
  simpl. destruct (last_item refs) as [l|] eqn:El; [|discriminate].
  intros [= <- <-]. split; [reflexivity|]. split.
  - intros ->. discriminate.
  - exists l. split; reflexivity.
Qed.

Lemma C10_constructed_stream_is_nonempty_witness :
  BlobStream._blob_refs (fst (foobar_stream 10)) = foobar_refs
  /\ foobar_refs <> []
  /\ exists l,
       last_item foobar_refs = Some l
       /\ BlobStream.size (fst (foobar_stream 10)) = offset l + size l.
Proof.
  destruct C10_constructed_stream_is_nonempty as [_ H].
  apply (H foobar_refs [] (sample_world 10) (fst (foobar_stream 10))
           (sample_world 10)).
  reflexivity.
Defined.

(** * Composing a file from blobs *)

Lemma Batch_from_concat {A : Type} (size : nat) (items batch : list A) :
  List.concat (Batch_from batch items size) = batch ++ items.
Proof.
  revert batch; induction items as [|x items IH]; intros batch; simpl.
  - destruct batch; simpl; now rewrite ?app_nil_r.
  - destruct (Nat.eqb _ size); simpl; rewrite IH; simpl;
      now rewrite <- app_assoc.
Qed.

Lemma Batch_concat {A : Type} (items : list A) (size : nat) :
  List.concat (Batch items size) = items.
Proof. apply Batch_from_concat. Qed.

Section AddFileFacts.

Variable sha256 : hashlib.
Variable fetch_order : list BlobID -> list BlobID.

(** The backend answers for exactly the ids of the batch, in any order. *)
Hypothesis fetch_order_spec : forall batch k,
  In k (fetch_order batch) <-> In k batch.

Variable blobs : list (BlobID * bytes).

Lemma check_found_ok ids w :
  (forall k, In k ids -> getitem blobs k <> None) ->
  check_found (fetched blobs ids) w = (Ok tt, w).
Proof.
  induction ids as [|k ids IH]; intros Hall; [reflexivity|]. simpl.
  destruct (getitem blobs k) eqn:E.
  - apply IH. intros k' Hk'. apply Hall. now right.
  - exfalso. apply (Hall k); [now left | exact E].
Qed.

Lemma check_found_missing ids w :
  (exists k, In k ids /\ getitem blobs k = None) ->
  exists k, In k ids /\ getitem blobs k = None
            /\ check_found (fetched blobs ids) w = (Raise (BlobNotFound k), w).
Proof.
  induction ids as [|k ids IH]; intros (k0 & Hin & Hk0); [destruct Hin|].
  simpl. destruct (getitem blobs k) eqn:E.
  - destruct IH as (k1 & Hin1 & Hk1 & Hc).
    + destruct Hin as [->|Hin]; [congruence | eauto].
    + exists k1. split; [now right|]. split; assumption.
  - exists k. split; [now left|]. split; [assumption | reflexivity].
Qed.

(** The inner loop, on a batch whose blobs were all fetched: one
    [update] per id, in the order of the batch. *)
Lemma add_batch_ok ids batch : forall l w,
  (forall k, In k batch -> In k ids) ->
  (forall k, In k batch -> getitem blobs k <> None) ->
  exists l',
    add_batch (fetched blobs ids) batch l w = (Ok l', w)
    /\ sha256_state l'
       = fold_left (update sha256) (map (blob_of blobs) batch)
           (sha256_state l).
Proof.
  induction batch as [|k batch IH]; intros l w Hin Hall; simpl.
  - exists l. split; reflexivity.
  - unfold bind, getitem_or_raise. unfold fetched.
    rewrite getitem_ReadBlobs_In by (apply Hin; now left). simpl.
    destruct (getitem blobs k) as [b|] eqn:E.
    2:{ exfalso. apply (Hall k); [now left | exact E]. }
    match goal with |- context [add_batch _ _ ?l1 w] =>
      destruct (IH l1 w) as (l' & El' & Hsha) end.
    { intros k' Hk'. apply Hin. now right. }
    { intros k' Hk'. apply Hall. now right. }
    exists l'. split; [exact El'|]. rewrite Hsha. simpl.
    f_equal. f_equal. unfold blob_of. now rewrite E.
Qed.

(** The loops never write to the metadata store nor change the blob
    store, whatever their outcome. *)
Lemma add_batch_world data batch : forall (l : locals sha256) w,
  snd (add_batch data batch l w) = w.
Proof.
  induction batch as [|k batch IH]; intros l w; simpl; [reflexivity|].
  unfold bind, getitem_or_raise.
  destruct (getitem data k) as [[b|]|]; simpl; auto.
Qed.

Lemma check_found_world data w : snd (check_found data w) = w.
Proof.
  induction data as [|[k [b|]] data IH]; simpl; auto.
Qed.

Lemma add_batches_world batches : forall (l : locals sha256) w r w',
  add_batches fetch_order batches l w = (r, w') ->
  BLOBS w' = BLOBS w /\ hash_blob_refs w' = hash_blob_refs w.
Proof.
  induction batches as [|batch batches IH]; intros l w r w'; simpl.
  - intros [= <- <-]. auto.
  - unfold bind, ReadBlobs.
    match goal with |- context [check_found ?d ?w1] =>
      pose proof (check_found_world d w1) as Hcw;
      destruct (check_found d w1) as [[[]|e] w2] end; simpl in Hcw; subst w2.
    2:{ intros [= <- <-]. auto. }
    match goal with |- context [add_batch ?d batch l ?w1] =>
      pose proof (add_batch_world d batch l w1) as Haw;
      destruct (add_batch d batch l w1) as [[l'|e] w2] end;
      simpl in Haw; subst w2.
    2:{ intros [= <- <-]. auto. }
    intros H. apply IH in H. exact H.
Qed.

Lemma bind_ReadBlobs {A : Type} ids (k : list (BlobID * option bytes) -> M World A) w :
  BLOBS w = blobs ->
  exists w1,
    bind (ReadBlobs ids) k w = k (fetched blobs ids) w1
    /\ BLOBS w1 = blobs.
Proof.
  intros Hb. unfold bind, ReadBlobs. rewrite Hb.
  eexists. split; reflexivity.
Qed.

(** All blobs present: the loops run to the end, and the hash object
    has been fed the blobs of the ids in their original order. *)
Lemma add_batches_ok batches : forall (l : locals sha256) w,
  BLOBS w = blobs ->
  (forall k, In k (List.concat batches) -> getitem blobs k <> None) ->
  exists l' w',
    add_batches fetch_order batches l w = (Ok l', w')
    /\ sha256_state l'
       = fold_left (update sha256)
           (map (blob_of blobs) (List.concat batches)) (sha256_state l).
Proof.
  induction batches as [|batch batches IH]; intros l w Hb Hall.
  - exists l, w. split; reflexivity.
  - cbn [add_batches List.concat].
    destruct (bind_ReadBlobs (fetch_order batch)
                (fun data => check_found data ;;;
                             l' <- add_batch data batch l ;;
                             add_batches fetch_order batches l') w Hb)
      as (w1 & -> & Hb1).
    unfold bind at 1. rewrite check_found_ok.
    2:{ intros k Hk. apply Hall, in_or_app. left.
        now apply fetch_order_spec. }
    unfold bind at 1.
    destruct (@add_batch_ok (fetch_order batch) batch l w1)
      as (l1 & -> & Hsha1).
    { intros k Hk. now apply fetch_order_spec. }
    { intros k Hk. apply Hall, in_or_app. now left. }
    destruct (IH l1 w1 Hb1) as (l' & w' & -> & Hsha).
    { intros k Hk. apply Hall, in_or_app. now right. }
    exists l', w'. split; [reflexivity|].
    now rewrite Hsha, Hsha1, map_app, fold_left_app.
Qed.

(** Some blob missing: the loops stop with [BlobNotFound] at the first
    batch that asks for a missing blob. *)
Lemma add_batches_missing batches : forall (l : locals sha256) w,
  BLOBS w = blobs ->
  (exists k, In k (List.concat batches) /\ getitem blobs k = None) ->
  exists k w',
    add_batches fetch_order batches l w = (Raise (BlobNotFound k), w')
    /\ In k (List.concat batches)
    /\ getitem blobs k = None.
Proof.
  induction batches as [|batch batches IH]; intros l w Hb (k0 & Hin0 & Hk0);
    [destruct Hin0|].
  cbn [add_batches List.concat].
  destruct (bind_ReadBlobs (fetch_order batch)
              (fun data => check_found data ;;;
                           l' <- add_batch data batch l ;;
                           add_batches fetch_order batches l') w Hb)
    as (w1 & -> & Hb1).
  unfold bind at 1.
  destruct (existsb (missing blobs) batch) eqn:Ex.
  - apply existsb_exists in Ex as (k & Hk & Hm).
    destruct (@check_found_missing (fetch_order batch) w1)
      as (k1 & Hin1 & Hk1 & ->).
    { exists k. split; [now apply fetch_order_spec|].
      unfold missing in Hm. now destruct (getitem blobs k). }
    exists k1, w1. split; [reflexivity|]. split; [|exact Hk1].
    apply in_or_app. left. now apply fetch_order_spec.
  - assert (Hall : forall k, In k batch -> getitem blobs k <> None).
    { intros k Hk E. assert (existsb (missing blobs) batch = true); [|congruence].
      apply existsb_exists. exists k. split; [exact Hk|].
      unfold missing. now rewrite E. }
    rewrite check_found_ok.
    2:{ intros k Hk. now apply Hall, fetch_order_spec. }
    unfold bind at 1.
    destruct (@add_batch_ok (fetch_order batch) batch l w1)
      as (l1 & -> & _).
    { intros k Hk. now apply fetch_order_spec. }
    { exact Hall. }
    destruct (IH l1 w1 Hb1) as (k & w' & -> & Hin & Hk).
    { exists k0. split; [|exact Hk0].
      apply in_app_or in Hin0 as [Hin0|Hin0]; [|exact Hin0].
      now destruct (Hall _ Hin0). }
    exists k, w'. split; [reflexivity|]. split; [|exact Hk].
    apply in_or_app. now right.
Qed.

End AddFileFacts.

Lemma In_dedup (l : list BlobID) (k : BlobID) : In k (dedup l) <-> In k l.
Proof.
  induction l as [|x l IH]; simpl; [tauto|].
  destruct (existsb (bytes_eqb x) l) eqn:E; simpl; rewrite IH; [|tauto].
  split; [tauto|]. intros [->|H]; [|exact H].
  apply existsb_exists in E as (y & Hy & Exy).
  apply bytes_eqb_eq in Exy. now subst.
Qed.

Lemma In_rev_dedup (l : list BlobID) (k : BlobID) :
  In k (rev (dedup l)) <-> In k l.
Proof. rewrite <- in_rev. apply In_dedup. Qed.

Lemma buffered_streams (f : bytes -> bytes) : streams (buffered f) f.
Proof.
  unfold streams. simpl. intros chunks. f_equal.
  change chunks with ([] ++ chunks) at 2.
  assert (G : forall acc : bytes,
             fold_left (fun h b => h ++ b) chunks acc
             = acc ++ List.concat chunks).
  { induction chunks as [|c chunks IH]; intros acc; simpl.
    - now rewrite app_nil_r.
    - now rewrite IH, app_assoc. }
  apply G.
Qed.

(** [AddFileWithUnknownHash] writes to the metadata store once, after
    the loops, when it returns, and not at all when it raises. *)
Lemma AddFile_writes_once (H : hashlib) fetch_order ids w r w' :
  AddFileWithUnknownHash H fetch_order ids w = (r, w') ->
  BLOBS w' = BLOBS w
  /\ match r with
     | Ok hash_id =>
         exists refs, hash_blob_refs w' = (hash_id, refs) :: hash_blob_refs w
     | Raise _ => hash_blob_refs w' = hash_blob_refs w
     end.
Proof.
  unfold AddFileWithUnknownHash. unfold bind at 1. cbv beta.
  destruct (add_batches _ _ _ w) as [[l|e] w1] eqn:E;
    apply add_batches_world in E as [Hb Hh].
  - unfold bind, WriteHashBlobReferences, ret. intros [= <- <-]. simpl.
    split; [exact Hb|]. eexists. now rewrite Hh.
  - intros [= <- <-]. auto.
Qed.

(** With every blob present the call returns, and what it returns is
    the one-shot digest of the blobs concatenated in the order of the
    ids. *)
Lemma AddFile_returns_digest (H : hashlib) (f : bytes -> bytes)
  (fetch_order : list BlobID -> list BlobID) (ids : list BlobID)
  (blobs : list (BlobID * bytes)) (w : World) :
  streams H f ->
  (forall batch k, In k (fetch_order batch) <-> In k batch) ->
  BLOBS w = blobs ->
  (forall k, In k ids -> getitem blobs k <> None) ->
  exists w',
    AddFileWithUnknownHash H fetch_order ids w
    = (Ok (f (List.concat (map (blob_of blobs) ids))), w').
Proof.
  intros Hstreams Horder Hb Hall.
  unfold AddFileWithUnknownHash. unfold bind at 1. cbv beta.
  destruct (@add_batches_ok H fetch_order Horder blobs
              (@Batch BlobID ids _BLOBS_READ_BATCH_SIZE)
              {| blob_refs := []; running_offset := 0;
                 sha256_state := new H |} w Hb)
    as (l' & w' & -> & Hsha).
  { now rewrite Batch_concat. }
  rewrite Batch_concat in Hsha. simpl in Hsha.
  unfold bind, WriteHashBlobReferences, ret. rewrite Hsha, Hstreams.
  eexists. reflexivity.
Qed.

(** C1 (hash of the concatenation).  When the blob of every chunk id is
    in the blob store, [AddFileWithUnknownHash] returns the SHA-256
    digest of the chunks' bytes concatenated in the order of the ids.
    This holds whatever order the backend returns the fetched blobs in,
    with the batching by 200 and the per-batch set of ids; so another
    call whose chunks concatenate to the same bytes, against the same
    blob store, returns the same hash. *)
Theorem C1_hash_of_concatenation (H : hashlib) (f : bytes -> bytes)
  (fetch_order : list BlobID -> list BlobID) (ids : list BlobID) (w : World) :
  streams H f ->
  (forall batch k, In k (fetch_order batch) <-> In k batch) ->
  (forall k, In k ids -> getitem (BLOBS w) k <> None) ->
  (exists w',
     AddFileWithUnknownHash H fetch_order ids w
     = (Ok (f (List.concat (map (blob_of (BLOBS w)) ids))), w'))
  /\ (forall fetch_order' ids' w2,
        (forall batch k, In k (fetch_order' batch) <-> In k batch) ->
        BLOBS w2 = BLOBS w ->
        (forall k, In k ids' -> getitem (BLOBS w) k <> None) ->
        List.concat (map (blob_of (BLOBS w)) ids')
        = List.concat (map (blob_of (BLOBS w)) ids) ->
        fst (AddFileWithUnknownHash H fetch_order' ids' w2)
        = fst (AddFileWithUnknownHash H fetch_order ids w)).
Proof.
  intros Hstreams Horder Hall.
  destruct (@AddFile_returns_digest H f fetch_order ids (BLOBS w) w
              Hstreams Horder eq_refl Hall) as (w' & E).
  split.
  - exists w'. exact E.
  - intros fo' ids' w2 Hfo' Hb Hall' Hcat.
    destruct (@AddFile_returns_digest H f fo' ids' (BLOBS w) w2
                Hstreams Hfo' Hb Hall') as (w2' & ->).
    rewrite E. simpl. now rewrite Hcat.
Qed.

Lemma C1_hash_of_concatenation_witness :
  exists w',
    AddFileWithUnknownHash (buffered (@rev byte)) (fun l => rev (dedup l))
      [id_a; id_b; id_a] (sample_world 10)
    = (Ok (rev (List.concat
                  (map (blob_of (BLOBS (sample_world 10)))
                     [id_a; id_b; id_a]))), w').
Proof.
  apply (@C1_hash_of_concatenation (buffered (@rev byte)) (@rev byte)
           (fun l => rev (dedup l)) [id_a; id_b; id_a] (sample_world 10)).
  - apply buffered_streams.
  - intros batch k. apply In_rev_dedup.
  - intros k [<-|[<-|[<-|[]]]]; discriminate.
Defined.

(** C2 (missing chunk).  If some chunk id has no blob in the store,
    [AddFileWithUnknownHash] raises [BlobNotFound], naming an id of the
    input that is missing, and the hash-to-references table of the
    metadata store is left as it was: nothing is written. *)
Theorem C2_missing_blob_writes_nothing (H : hashlib)
  (fetch_order : list BlobID -> list BlobID) (ids : list BlobID) (w : World) :
  (forall batch k, In k (fetch_order batch) <-> In k batch) ->
  (exists k, In k ids /\ getitem (BLOBS w) k = None) ->
  exists k w',
    AddFileWithUnknownHash H fetch_order ids w = (Raise (BlobNotFound k), w')
    /\ In k ids
    /\ getitem (BLOBS w) k = None
    /\ hash_blob_refs w' = hash_blob_refs w.
Proof.
  intros Horder Hmiss.
  destruct (@add_batches_missing H fetch_order Horder (BLOBS w)
              (@Batch BlobID ids _BLOBS_READ_BATCH_SIZE)
              {| blob_refs := []; running_offset := 0;
                 sha256_state := new H |} w eq_refl)
    as (k & w' & E & Hin & Hk).
  { now rewrite Batch_concat. }
  rewrite Batch_concat in Hin.
  assert (E' : AddFileWithUnknownHash H fetch_order ids w
               = (Raise (BlobNotFound k), w')).
  { unfold AddFileWithUnknownHash. unfold bind at 1. cbv beta.
    now rewrite E. }
  exists k, w'. split; [exact E'|]. split; [exact Hin|]. split; [exact Hk|].
  now apply AddFile_writes_once in E' as [_ Hh].
Qed.

Lemma C2_missing_blob_writes_nothing_witness :
  exists k w',
    AddFileWithUnknownHash (buffered (@rev byte)) dedup
      [id_a; id_c; id_b] (sample_world 10)
    = (Raise (BlobNotFound k), w')
    /\ In k [id_a; id_c; id_b]
    /\ getitem (BLOBS (sample_world 10)) k = None
    /\ hash_blob_refs w' = hash_blob_refs (sample_world 10).
Proof.
  apply (@C2_missing_blob_writes_nothing (buffered (@rev byte)) dedup
           [id_a; id_c; id_b] (sample_world 10)).
  - apply In_dedup.
  - exists id_c. split; [simpl; tauto | reflexivity].
Defined.

(** * Opening a file *)

Lemma latest_of_some (l : list PathInfo) : forall b,
  exists p, latest_of (Some b) l = Some p.
Proof.
  induction l as [|q l IH]; intros b; simpl; [eauto|].
  destruct (timestamp b <? timestamp q); apply IH.
Qed.

Lemma latest_of_none (l : list PathInfo) :
  latest_of None l = None <-> l = [].
Proof.
  destruct l as [|q l]; simpl; [tauto|].
  destruct (latest_of_some l q) as (p & ->).
  split; discriminate.
Qed.

(** The binding picked is one of the candidates, and none is later. *)
Lemma latest_of_greatest (l : list PathInfo) : forall best p,
  latest_of best l = Some p ->
  (best = Some p \/ In p l)
  /\ (forall q, best = Some q \/ In q l -> timestamp q <= timestamp p).
Proof.
  induction l as [|x l IH]; intros best p; simpl.
  - intros ->. split; [now left|]. intros q [[= ->]|[]]. lia.
  - destruct best as [b|].
    + destruct (Z.ltb_spec (timestamp b) (timestamp x)); intros E;
        apply IH in E as [Hin Hmax].
      * split; [destruct Hin as [[= ->]|Hin]; auto|].
        intros q [[= ->]|[->|Hq]]; auto.
        specialize (Hmax x (or_introl eq_refl)). lia.
      * split; [destruct Hin as [Hin|Hin]; auto|].
        intros q [Hq|[->|Hq]]; auto.
        specialize (Hmax b (or_introl eq_refl)). lia.
    + intros E. apply IH in E as [Hin Hmax].
      split; [destruct Hin as [[= ->]|Hin]; auto|].
      intros q [Hq|[->|Hq]]; [discriminate| |]; auto.
Qed.

Lemma In_bindings_of client_path max_timestamp w p :
  In p (bindings_of client_path max_timestamp w)
  <-> In (client_path, p) (path_history w)
      /\ within_ceiling max_timestamp p = true.
Proof.
  unfold bindings_of. rewrite filter_In, in_map_iff. split.
  - intros [([c q] & <- & Hin) Hc]. apply filter_In in Hin as [Hin Ec].
    simpl in *. apply String.eqb_eq in Ec. subst c. auto.
  - intros [Hin Hc]. split; [|exact Hc].
    exists (client_path, p). split; [reflexivity|].
    apply filter_In. split; [exact Hin|]. simpl. apply String.eqb_refl.
Qed.

(** [OpenFile], step by step. *)
Lemma OpenFile_cases (client_path : ClientPath) (max_timestamp : option Z)
  (w : World) :
  OpenFile client_path max_timestamp w
  = match latest_of None (bindings_of client_path max_timestamp w) with
    | None => (Raise FileHasNoContent, w)
    | Some path_info =>
        let hash_id := hash_entry_sha256 path_info in
        if Nat.eqb (List.length hash_id) 32 then
          match getitem (hash_blob_refs w) hash_id with
          | None => (Raise (MissingBlobReferences hash_id), w)
          | Some refs => BlobStream.__init__ refs hash_id w
          end
        else (Raise (ValueError_length (List.length hash_id)), w)
    end.
Proof.
  unfold OpenFile, ReadLatestPathInfosWithHashBlobReferences,
    ReadHashBlobReferences, SHA256HashID_FromBytes, SHA256_LENGTH, bind.
  destruct (latest_of None _) as [path_info|]; [|reflexivity].
  cbv zeta. destruct (Nat.eqb _ 32); [|reflexivity].
  unfold ret. now destruct (getitem _ _).
Qed.

(** C9, as the claim states it, fails: when the path resolves to a
    32-byte hash and that hash is recorded with an empty reference list,
    [OpenFile] raises neither of the two errors and returns no stream; it
    fails with the [IndexError] of the constructor. *)
Lemma C9_counterexample :
  fst (ReadLatestPathInfosWithHashBlobReferences tmp_x None (collected_world []))
  = Ok (Some {| timestamp := 5; hash_entry_sha256 := hash_1 |})
  /\ List.length hash_1 = 32%nat
  /\ getitem (hash_blob_refs (collected_world [])) hash_1 = Some []
  /\ OpenFile tmp_x None (collected_world [])
     = (Raise IndexError, collected_world []).
Proof. repeat split. Qed.

(** C9, amended.  [OpenFile] raises [FileHasNoContent] exactly when the
    path resolves to no binding, which is when the history holds no
    collection of the path at or before [max_timestamp].  When the path
    resolves to a binding whose hash is a SHA-256 id (32 bytes, which
    [SHA256HashID.FromBytes] checks, raising [ValueError] otherwise), it
    raises the distinct [MissingBlobReferences] if the hash has no
    reference list in the metadata store, and if the hash has a
    non-empty reference list it returns the stream the constructor
    builds over that list. *)
Theorem C9_OpenFile_outcomes (client_path : ClientPath)
  (max_timestamp : option Z) (w : World) :
  let resolved :=
    fst (ReadLatestPathInfosWithHashBlobReferences client_path max_timestamp w)
  in
  (fst (OpenFile client_path max_timestamp w) = Raise FileHasNoContent
   <-> resolved = Ok None)
  /\ (resolved = Ok None
      <-> forall p, In (client_path, p) (path_history w) ->
                    within_ceiling max_timestamp p = false)
  /\ (forall path_info,
        resolved = Ok (Some path_info) ->
        let hash_id := hash_entry_sha256 path_info in
        (List.length hash_id <> 32%nat ->
         OpenFile client_path max_timestamp w
         = (Raise (ValueError_length (List.length hash_id)), w))
        /\ (List.length hash_id = 32%nat ->
            getitem (hash_blob_refs w) hash_id = None ->
            OpenFile client_path max_timestamp w
            = (Raise (MissingBlobReferences hash_id), w))
        /\ (forall refs,
              List.length hash_id = 32%nat ->
              getitem (hash_blob_refs w) hash_id = Some refs ->
              refs <> [] ->
              exists o,
                OpenFile client_path max_timestamp w = (Ok o, w)
                /\ BlobStream.__init__ refs hash_id w = (Ok o, w))).
Proof.
  intros resolved. rewrite OpenFile_cases.
  unfold resolved, ReadLatestPathInfosWithHashBlobReferences. cbn [fst].
  destruct (latest_of None (bindings_of client_path max_timestamp w))
    as [path_info|] eqn:E.
  - split; [|split].
    + split; [|discriminate]. cbv zeta.
      destruct (Nat.eqb _ 32); [|discriminate].
      destruct (getitem (hash_blob_refs w) (hash_entry_sha256 path_info))
        as [refs|]; [|discriminate].
      unfold BlobStream.__init__, bind, get, raise, ret.
      destruct (last_item refs); discriminate.
    + split; [discriminate|]. intros Hnone. exfalso.
      apply latest_of_greatest in E as [[?|Hin] _]; [discriminate|].
      apply In_bindings_of in Hin as [Hin Hc].
      rewrite (Hnone _ Hin) in Hc. discriminate.
    + intros p [= <-]. cbv zeta. split; [|split].
      * intros H32. apply Nat.eqb_neq in H32. now rewrite H32.
      * intros H32 Hnone. now rewrite H32, Hnone.
      * intros refs H32 Hrefs Hne. rewrite H32, Hrefs. simpl Nat.eqb.
        destruct (@init_returns_on_nonempty refs
                    (hash_entry_sha256 path_info) w Hne) as (o & Eo & _).
        exists o. now rewrite Eo.
  - split; [|split].
    + split; reflexivity.
    + split; [|reflexivity]. intros _ p Hin.
      destruct (within_ceiling max_timestamp p) eqn:Ec; [|reflexivity].
      apply latest_of_none in E.
      assert (Hb : In p (bindings_of client_path max_timestamp w))
        by (apply In_bindings_of; auto).
      rewrite E in Hb. destruct Hb.
    + discriminate.
Qed.

Lemma C9_OpenFile_outcomes_witness :
  exists o,
    OpenFile tmp_x (Some 7) (collected_world foobar_refs)
    = (Ok o, collected_world foobar_refs)
    /\ BlobStream.__init__ foobar_refs hash_1 (collected_world foobar_refs)
       = (Ok o, collected_world foobar_refs).
Proof.
  destruct (C9_OpenFile_outcomes tmp_x (Some 7) (collected_world foobar_refs))
    as (_ & _ & H).
  destruct (H {| timestamp := 5; hash_entry_sha256 := hash_1 |} eq_refl)
    as (_ & _ & Hok).
  apply (Hok foobar_refs); [reflexivity | reflexivity | discriminate].
Defined.

(** * From composing to reading *)

Lemma getitem_fetched blobs ids k v :
  getitem (fetched blobs ids) k = Some v -> v = getitem blobs k.
Proof.
  induction ids as [|k' ids IH]; simpl; [discriminate|].
  destruct (bytes_eqb k' k) eqn:E; [|exact IH].
  apply bytes_eqb_eq in E. subst k'. now intros [= <-].
Qed.

Lemma refs_from_app blobs ids1 : forall start ids2,
  refs_from blobs start (ids1 ++ ids2)
  = refs_from blobs start ids1
    ++ refs_from blobs (start + total_size (refs_from blobs start ids1)) ids2.
Proof.
  induction ids1 as [|k ids1 IH]; intros start ids2; simpl.
  - now rewrite Z.add_0_r.
  - rewrite IH. do 3 f_equal. lia.
Qed.

Lemma refs_from_contiguous blobs ids : forall start,
  contiguous_from start (refs_from blobs start ids).
Proof.
  induction ids as [|k ids IH]; intros start; simpl; [exact I|].
  split; [reflexivity|]. split; [lia | apply IH].
Qed.

Lemma refs_from_stored blobs ids : forall start,
  (forall k, In k ids -> getitem blobs k <> None) ->
  Forall (stored blobs) (refs_from blobs start ids).
Proof.
  induction ids as [|k ids IH]; intros start Hall; simpl; constructor.
  - unfold stored, blob_of. simpl.
    destruct (getitem blobs k) as [b|] eqn:E.
    + exists b. split; reflexivity.
    + exfalso. apply (Hall k); [now left | exact E].
  - apply IH. intros k' Hk'. apply Hall. now right.
Qed.

Lemma refs_from_logical_file blobs ids : forall start,
  logical_file blobs (refs_from blobs start ids)
  = List.concat (map (blob_of blobs) ids).
Proof.
  induction ids as [|k ids IH]; intros start; [reflexivity|].
  unfold logical_file in *. simpl. now rewrite IH.
Qed.

(** The references appended by the inner loop. *)
Lemma add_batch_refs (H : hashlib) blobs ids batch :
  forall (l l' : locals H) w w',
    add_batch (fetched blobs ids) batch l w = (Ok l', w') ->
    blob_refs l' = blob_refs l ++ refs_from blobs (running_offset l) batch
    /\ running_offset l'
       = running_offset l
         + total_size (refs_from blobs (running_offset l) batch).
Proof.
  induction batch as [|k batch IH]; intros l l' w w'; simpl.
  - intros [= <- <-]. rewrite app_nil_r. split; [reflexivity | lia].
  - unfold bind, getitem_or_raise.
    destruct (getitem (fetched blobs ids) k) as [[b|]|] eqn:E;
      simpl; try discriminate.
    apply getitem_fetched in E. intros Hrun.
    apply IH in Hrun as [Hrefs Hoff]. simpl in Hrefs, Hoff.
    unfold blob_of. rewrite <- E.
    rewrite Hrefs, Hoff, <- app_assoc. simpl. split; [reflexivity | lia].
Qed.

(** The references appended by the outer loop. *)
Lemma add_batches_refs (H : hashlib) fetch_order blobs batches :
  forall (l l' : locals H) w w',
    BLOBS w = blobs ->
    add_batches fetch_order batches l w = (Ok l', w') ->
    blob_refs l'
    = blob_refs l ++ refs_from blobs (running_offset l) (List.concat batches)
    /\ running_offset l'
       = running_offset l
         + total_size
             (refs_from blobs (running_offset l) (List.concat batches)).
Proof.
  induction batches as [|batch batches IH]; intros l l' w w' Hb.
  - simpl. intros [= <- <-]. rewrite app_nil_r. split; [reflexivity | lia].
  - cbn [add_batches List.concat].
    destruct (@bind_ReadBlobs blobs _ (fetch_order batch)
                (fun data => check_found data ;;;
                             l' <- add_batch data batch l ;;
                             add_batches fetch_order batches l') w Hb)
      as (w1 & -> & Hb1).
    unfold bind at 1.
    pose proof (check_found_world (fetched blobs (fetch_order batch)) w1) as Hcw.
    destruct (check_found _ w1) as [[[]|e] w2]; [|discriminate].
    simpl in Hcw. subst w2. unfold bind at 1.
    destruct (add_batch _ batch l w1) as [[l1|e] w2] eqn:E1; [|discriminate].
    pose proof (add_batch_world (fetched blobs (fetch_order batch)) batch l w1)
      as Haw.
    rewrite E1 in Haw. simpl in Haw. subst w2.
    apply add_batch_refs in E1 as [Hrefs1 Hoff1].
    intros Hrun. apply (IH l1 l' w1 w' Hb1) in Hrun as [Hrefs Hoff].
    rewrite refs_from_app, Hrefs, Hoff, Hrefs1, Hoff1, total_size_app.
    rewrite <- app_assoc. split; [reflexivity | lia].
Qed.

(** What a successful call persists: the references of the ids, laid
    out from offset 0, under the returned hash. *)
Lemma AddFile_persists (H : hashlib) fetch_order ids w hash_id w' :
  AddFileWithUnknownHash H fetch_order ids w = (Ok hash_id, w') ->
  hash_blob_refs w'
  = (hash_id, refs_from (BLOBS w) 0 ids) :: hash_blob_refs w
  /\ BLOBS w' = BLOBS w
  /\ max_unbound_read_size w' = max_unbound_read_size w.
Proof.
  unfold AddFileWithUnknownHash. unfold bind at 1. cbv beta.
  destruct (add_batches _ _ _ w) as [[l|e] w1] eqn:E; [|discriminate].
  pose proof E as E0. apply add_batches_world in E0 as [Hb Hh].
  assert (Hm : max_unbound_read_size w1 = max_unbound_read_size w).
  { clear -E. revert E. generalize (mkLocals H [] 0 (new H)).
    generalize (@Batch BlobID ids _BLOBS_READ_BATCH_SIZE).
    intros batches. revert w.
    induction batches as [|batch batches IH]; intros w l0; simpl.
    - now intros [= <- <-].
    - unfold bind, ReadBlobs.
      match goal with |- context [check_found ?d ?w2] =>
        pose proof (check_found_world d w2) as Hcw;
        destruct (check_found d w2) as [[[]|e] w3] end; [|discriminate].
      simpl in Hcw; subst w3.
      match goal with |- context [add_batch ?d batch l0 ?w2] =>
        pose proof (add_batch_world d batch l0 w2) as Haw;
        destruct (add_batch d batch l0 w2) as [[l1|e] w3] end;
        [|discriminate].
      simpl in Haw; subst w3. intros Hrun. now apply IH in Hrun. }
  apply (@add_batches_refs H fetch_order (BLOBS w)) in E as [Hrefs _];
    [|reflexivity].
  rewrite Batch_concat in Hrefs. simpl in Hrefs.
  unfold bind, WriteHashBlobReferences, ret. intros [= <- <-]. simpl.
  now rewrite Hrefs, Hh.
Qed.

(** Composing a non-empty file and then reading the stream built over
    the persisted references gives back the blobs, concatenated in the
    order of the ids: the reference lists the reader theorems ask for
    are the ones the writer produces. *)
Lemma composed_file_reads_back (H : hashlib) (f : bytes -> bytes)
  fetch_order ids w :
  streams H f ->
  (forall batch k, In k (fetch_order batch) <-> In k batch) ->
  (forall k, In k ids -> getitem (BLOBS w) k <> None) ->
  ids <> [] ->
  Z.of_nat (List.length (List.concat (map (blob_of (BLOBS w)) ids)))
  <= max_unbound_read_size w ->
  exists hash_id w1 refs o s',
    AddFileWithUnknownHash H fetch_order ids w = (Ok hash_id, w1)
    /\ ReadHashBlobReferences hash_id w1 = (Ok (Some refs), w1)
    /\ BlobStream.__init__ refs hash_id w1 = (Ok o, w1)
    /\ BlobStream.Read None (o, w1)
       = Some (Ok (List.concat (map (blob_of (BLOBS w)) ids)), s').
Proof.
  intros Hstreams Horder Hall Hne Hmax.
  destruct (@AddFile_returns_digest H f fetch_order ids (BLOBS w) w
              Hstreams Horder eq_refl Hall) as (w1 & Erun).
  destruct (AddFile_persists _ _ _ _ Erun) as (Hrefs & Hb & Hm).
  set (refs := refs_from (BLOBS w) 0 ids) in *.
  assert (Hc : contiguous_from 0 refs) by apply refs_from_contiguous.
  assert (Hst : Forall (stored (BLOBS w)) refs)
    by now apply refs_from_stored.
  assert (Hfile : logical_file (BLOBS w) refs
                  = List.concat (map (blob_of (BLOBS w)) ids))
    by apply refs_from_logical_file.
  destruct (@init_returns_on_nonempty refs
              (f (List.concat (map (blob_of (BLOBS w)) ids))) w1)
    as (o & Einit & _ & Hoff).
  { unfold refs. destruct ids; [congruence | discriminate]. }
  destruct (@init_stream_over (BLOBS w) refs Hc _ _ _ _ Hb Einit)
    as (Hover & _ & _ & HM).
  pose proof (logical_file_length Hst) as Hlen.
  destruct (@Read_bytes_at (BLOBS w) refs Hc Hst (total_size refs) (o, w1))
    as (s' & Eread & _); simpl; try lia.
  { exact Hover. }
  { rewrite HM, Hm, <- Hlen, Hfile. exact Hmax. }
  exists (f (List.concat (map (blob_of (BLOBS w)) ids))), w1, refs, o, s'.
  split; [exact Erun|]. split.
  { unfold ReadHashBlobReferences. rewrite Hrefs. simpl.
    now rewrite bytes_eqb_refl. }
  split; [exact Einit|].
  change (BlobStream.Read None (o, w1))
    with (BlobStream.Read
            (Some (BlobStream._length o - BlobStream._offset o)) (o, w1)).
  pose proof (over_length Hover) as HL. simpl in HL, Eread.
  rewrite HL, Hoff, Z.sub_0_r, Eread, Hoff. unfold bytes_at. simpl.
  rewrite firstn_all2 by lia. now rewrite Hfile.
Qed.

(** * Worked examples *)

(** 201 ids make a batch of 200 and a batch of 1, hence two [ReadBlobs]
    calls, each for the single distinct id. *)
Example two_batches_for_201_ids :
  map (@List.length BlobID) (Batch (repeat id_a 201) _BLOBS_READ_BATCH_SIZE)
  = [200%nat; 1%nat]
  /\ BLOBS_reads
       (snd (AddFileWithUnknownHash (buffered (fun b => b)) dedup
               (repeat id_a 201) (sample_world 10)))
     = [[id_a]; [id_a]].
Proof. split; vm_compute; reflexivity. Qed.

(** The "simple dedup file" scenario: composing [a; b] hashes "foobar"
    and records two references at offsets 0 and 3. *)
Example compose_foo_bar :
  AddFileWithUnknownHash (buffered (fun b => b)) dedup [id_a; id_b]
    (sample_world 10)
  = (Ok (foo ++ bar),
     {| BLOBS := [(id_a, foo); (id_b, bar)];
        BLOBS_reads := [[id_a; id_b]];
        hash_blob_refs := [(foo ++ bar, foobar_refs)];
        path_history := [];
        max_unbound_read_size := 10 |}).
Proof. vm_compute. reflexivity. Qed.

(** Reads that stay inside one chunk fetch it once: the second read is
    served from the cached chunk. *)
Example second_read_uses_the_cache :
  exists s1 s2,
    BlobStream.Read (Some 1) (foobar_stream 10) = Some (Ok [x66], s1)
    /\ BlobStream.Read (Some 1) s1 = Some (Ok [x6f], s2)
    /\ BLOBS_reads (snd s2) = [[id_a]].
Proof. eexists _, _. repeat split; vm_compute; reflexivity. Qed.

(** * Further properties of the stream reader *)

Lemma read_frame_refl (s : BlobStream.t * World) : read_frame s s.
Proof.
  constructor; try reflexivity. exists []. split; [reflexivity | constructor].
Qed.

Lemma read_frame_trans (s1 s2 s3 : BlobStream.t * World) :
  read_frame s1 s2 -> read_frame s2 s3 -> read_frame s1 s3.
Proof.
  intros [A1 A2 A3 A4 A5 A6 A7 A8 (f1 & A9 & A10)]
         [B1 B2 B3 B4 B5 B6 B7 B8 (f2 & B9 & B10)].
  constructor; try congruence.
  exists (f2 ++ f1). split.
  - now rewrite B9, A9, app_assoc.
  - apply Forall_app. split; [|exact A10]. now rewrite <- A1.
Qed.

Lemma read_frame_with_offset (s : BlobStream.t * World) (off : Z) :
  read_frame s (BlobStream.with_offset (fst s) off, snd s).
Proof.
  constructor; try reflexivity. exists []. split; [reflexivity | constructor].
Qed.

(** One run of the chunk locator keeps the cursor, makes at most one
    fetch, of the blob of the reference found, and keeps the cache
    coherent. *)
Lemma _GetChunk_frame (s : BlobStream.t * World) x s' :
  BlobStream._GetChunk s = (x, s') ->
  read_frame s s'
  /\ BlobStream._offset (fst s') = BlobStream._offset (fst s)
  /\ (cache_coherent s -> cache_coherent s').
Proof.
  destruct s as [o w].
  unfold BlobStream._GetChunk, bind, BlobStream.self. simpl.
  destruct (find _ _) as [r|] eqn:Ef.
  2:{ intros [= <- <-]. split; [apply read_frame_refl | auto]. }
  apply find_some in Ef as [Hin _].
  destruct (current_ref_neq _ r); simpl.
  - unfold in_world, ReadBlobs, getitem_or_raise. simpl.
    rewrite bytes_eqb_refl. simpl. intros [= <- <-]. split; [|split].
    + constructor; try reflexivity. exists [[blob_id r]].
      split; [reflexivity|]. constructor; [|constructor].
      exists r. split; [exact Hin | reflexivity].
    + reflexivity.
    + intros _ r' [= <-]. reflexivity.
  - intros [= <- <-]. split; [apply read_frame_refl | auto].
Qed.

Lemma Read_loop_frame (fuel : nat) : forall length acc s r s',
  BlobStream.Read_loop fuel length acc s = Some (r, s') ->
  read_frame s s' /\ (cache_coherent s -> cache_coherent s').
Proof.
  induction fuel as [|fuel IH]; intros length acc s r s'; cbn [BlobStream.Read_loop];
    destruct (Z.of_nat (List.length acc) <? length);
    try discriminate;
    try (intros [= <- <-]; split; [apply read_frame_refl | auto]; fail).
  destruct (BlobStream._GetChunk s) as [[[chunk ref]|e] s1] eqn:E;
    apply _GetChunk_frame in E as (Hf & Hoff & Hc).
  2:{ intros [= <- <-]. auto. }
  destruct (BlobStream.truthy chunk) as [b|]; [|intros [= <- <-]; auto].
  destruct ref as [ref|]; [|intros [= <- <-]; auto].
  destruct (slice_from b _) as [|y part]; [intros [= <- <-]; auto|].
  intros Hrun. apply IH in Hrun as [Hf' Hc'].
  split.
  - eapply read_frame_trans; [exact Hf|].
    eapply read_frame_trans; [apply read_frame_with_offset | exact Hf'].
  - intros H0. apply Hc'. intros r0. simpl. apply (Hc H0).
Qed.

Lemma Read_frame (length : option Z) (s : BlobStream.t * World) r s' :
  BlobStream.Read length s = Some (r, s') ->
  read_frame s s' /\ (cache_coherent s -> cache_coherent s').
Proof.
  unfold BlobStream.Read.
  destruct (_ >? _).
  - intros [= <- <-]. split; [apply read_frame_refl | auto].
  - match goal with |- context [BlobStream.Read_loop ?f ?n ?a s] =>
      destruct (BlobStream.Read_loop f n a s) as [[[res|e] s1]|] eqn:E end;
      try discriminate;
      apply Read_loop_frame in E; now intros [= <- <-].
Qed.

Lemma slice_to_length (b : bytes) (n : Z) :
  0 <= n -> Z.of_nat (List.length (slice_to b n)) <= n.
Proof.
  intros Hn. unfold slice_to. destruct (Z.leb_spec 0 n); [|lia].
  rewrite length_firstn. lia.
Qed.

Lemma BlobReference_eqb_refl (r : BlobReference) : BlobReference_eqb r r = true.
Proof.
  unfold BlobReference_eqb. now rewrite !Z.eqb_refl, bytes_eqb_refl.
Qed.

Lemma current_ref_neq_false (cur : option BlobReference) (r : BlobReference) :
  current_ref_neq cur r = false <-> cur = Some r.
Proof.
  destruct cur as [r'|]; simpl; [|split; discriminate].
  split.
  - intros H. apply negb_false_iff, BlobReference_eqb_eq in H. now subst.
  - intros [= ->]. now rewrite BlobReference_eqb_refl.
Qed.

(** The locator's answer in full: the blob of the reference found, and a
    fetch exactly when that reference is not the cached one. *)
Lemma _GetChunk_value (s : BlobStream.t * World) (r : BlobReference) :
  cache_coherent s ->
  find (BlobStream.covers (BlobStream._offset (fst s)))
    (BlobStream._blob_refs (fst s)) = Some r ->
  BlobStream._GetChunk s
  = (Ok (getitem (BLOBS (snd s)) (blob_id r), Some r),
     if current_ref_neq (BlobStream._current_ref (fst s)) r
     then (BlobStream.with_current (fst s) r
             (getitem (BLOBS (snd s)) (blob_id r)),
           logged [blob_id r] (snd s))
     else s).
Proof.
  intros Hc Hf. destruct s as [o w]. simpl in *.
  unfold BlobStream._GetChunk, bind, BlobStream.self. simpl. rewrite Hf.
  destruct (current_ref_neq (BlobStream._current_ref o) r) eqn:E; simpl.
  - unfold in_world, ReadBlobs, getitem_or_raise. simpl.
    now rewrite bytes_eqb_refl.
  - apply current_ref_neq_false in E. specialize (Hc r E). simpl in Hc.
    now rewrite E, Hc.
Qed.

Lemma stream_over_coherent blobs refs s :
  stream_over blobs refs s -> cache_coherent s.
Proof.
  intros [H1 H2 H3 H4] r Hr. rewrite H2. now apply H4.
Qed.

Lemma find_covers_none_below start refs c :
  contiguous_from start refs -> c < start ->
  find (BlobStream.covers c) refs = None.
Proof.
  revert start; induction refs as [|r refs IH]; intros start; [reflexivity|].
  intros (Ho & Hs & Hc) Hlt. simpl. unfold BlobStream.covers at 1.
  rewrite Z.geb_leb. destruct (Z.leb_spec (offset r) c); [lia|].
  simpl. apply (IH _ Hc). lia.
Qed.

(** A read that the chunk under the cursor can satisfy alone. *)
Lemma Read_within_chunk blobs refs s r n :
  contiguous_from 0 refs ->
  Forall (stored blobs) refs ->
  stream_over blobs refs s ->
  find (BlobStream.covers (BlobStream._offset (fst s))) refs = Some r ->
  0 < n ->
  BlobStream._offset (fst s) + n <= offset r + size r ->
  n <= BlobStream._max_unbound_read (fst s) ->
  BlobStream.Read (Some n) s
  = Some (Ok (bytes_at (logical_file blobs refs) (BlobStream._offset (fst s)) n),
          (BlobStream.with_offset
             (fst (if current_ref_neq (BlobStream._current_ref (fst s)) r
                   then (BlobStream.with_current (fst s) r
                           (getitem blobs (blob_id r)),
                         logged [blob_id r] (snd s))
                   else s))
             (BlobStream._offset (fst s) + n),
           snd (if current_ref_neq (BlobStream._current_ref (fst s)) r
                then (BlobStream.with_current (fst s) r
                        (getitem blobs (blob_id r)),
                      logged [blob_id r] (snd s))
                else s))).
Proof.
  intros Hc Hst Hs Hf Hn Hfit Hmax.
  assert (H0 : 0 <= BlobStream._offset (fst s)).
  { destruct (Z.lt_ge_cases (BlobStream._offset (fst s)) 0) as [Hneg|]; [|lia].
    rewrite (@find_covers_none_below 0 refs _ Hc Hneg) in Hf. discriminate. }
  destruct (@Read_bytes_at blobs refs Hc Hst n s Hs H0 Hmax) as (s' & E & _).
  rewrite E. f_equal. f_equal.
  (* run the loop once to see where it leaves the object *)
  unfold BlobStream.Read in E.
  destruct (Z.gtb_spec n (BlobStream._max_unbound_read (fst s))); [lia|].
  destruct (Z.to_nat n) as [|fuel] eqn:En; [lia|].
  cbn [BlobStream.Read_loop] in E. simpl List.length in E.
  destruct (Z.ltb_spec (Z.of_nat 0) n); [|lia].
  pose proof (stream_over_coherent Hs) as Hcoh.
  rewrite <- (over_refs Hs) in Hf.
  rewrite (_GetChunk_value Hcoh Hf), (over_blobs Hs) in E.
  rewrite (over_refs Hs) in Hf.
  pose proof (@find_covers 0 refs _ Hc H0) as Hfc. rewrite Hf in Hfc.
  destruct Hfc as (pre & post & Erefs & Ho & Hr).
  assert (Hstr : stored blobs r).
  { rewrite Forall_forall in Hst. apply Hst. rewrite Erefs.
    apply in_or_app. right. now left. }
  destruct Hstr as (b & Hb & Hblen). rewrite Hb in E |- *.
  destruct b as [|x b]; [simpl in Hblen; lia|].
  cbn [BlobStream.truthy] in E. unfold slice_from in E.
  set (s1 := if current_ref_neq (BlobStream._current_ref (fst s)) r
             then _ else s) in *.
  assert (Hoff1 : BlobStream._offset (fst s1) = BlobStream._offset (fst s)).
  { unfold s1. now destruct (current_ref_neq _ r). }
  rewrite Hoff1 in E.
  destruct (Z.leb_spec 0 (BlobStream._offset (fst s) - offset r)); [|lia].
  assert (Hpart : Z.of_nat
                    (List.length
                       (skipn (Z.to_nat (BlobStream._offset (fst s) - offset r))
                          (x :: b)))
                  = offset r + size r - BlobStream._offset (fst s)).
  { rewrite length_skipn. lia. }
  destruct (skipn (Z.to_nat (BlobStream._offset (fst s) - offset r)) (x :: b))
    as [|y part']; [simpl in Hpart; lia|].
  change (Z.of_nat (S (List.length part')))
    with (Z.of_nat (List.length (y :: part'))) in E.
  rewrite Z.min_l in E by lia.
  change ([] ++ y :: part') with (y :: part') in E.
  rewrite Read_loop_done in E by lia.
  now injection E as _ <-.
Qed.

(** When at least the rest of the file is asked for, every part fits in
    what is still wanted, so the cursor moves chunk by chunk and stops at
    the end of the file. *)
Lemma Read_loop_to_end blobs refs (fuel : nat) :
  contiguous_from 0 refs ->
  Forall (stored blobs) refs ->
  forall length acc s,
    stream_over blobs refs s ->
    0 <= BlobStream._offset (fst s) <= total_size refs ->
    total_size refs - BlobStream._offset (fst s)
    <= length - Z.of_nat (List.length acc) ->
    length - Z.of_nat (List.length acc) <= Z.of_nat fuel ->
    exists s',
      BlobStream.Read_loop fuel length acc s
      = Some (Ok (acc ++ skipn (Z.to_nat (BlobStream._offset (fst s)))
                           (logical_file blobs refs)), s')
      /\ stream_over blobs refs s'
      /\ BlobStream._offset (fst s') = total_size refs.
Proof.
  intros Hc Hst. induction fuel as [|fuel IH]; intros length acc s Hs H0 Hrem Hfuel.
  - rewrite Read_loop_done by lia. exists s.
    rewrite skipn_logical_file_end by (auto; lia). rewrite app_nil_r.
    split; [reflexivity|]. split; [assumption | lia].
  - destruct (Z.ltb_spec (Z.of_nat (List.length acc)) length) as [Hlt|Hge].
    2:{ rewrite Read_loop_done by lia. exists s.
        rewrite skipn_logical_file_end by (auto; lia). rewrite app_nil_r.
        split; [reflexivity|]. split; [assumption | lia]. }
    cbn [BlobStream.Read_loop].
    destruct (Z.ltb_spec (Z.of_nat (List.length acc)) length); [|lia].
    pose proof (@find_covers 0 refs (BlobStream._offset (fst s)) Hc (proj1 H0))
      as Hf.
    destruct (find (BlobStream.covers (BlobStream._offset (fst s))) refs)
      as [r|] eqn:Efind.
    + destruct Hf as (pre & post & Erefs & Ho & Hr).
      destruct (@_GetChunk_found blobs refs s r Hs Efind)
        as (s1 & -> & Hs1 & Hoff1 & _).
      assert (Hstr : stored blobs r).
      { rewrite Forall_forall in Hst. apply Hst. rewrite Erefs.
        apply in_or_app. right. now left. }
      destruct Hstr as (b & Hb & Hblen). rewrite Hb.
      assert (Hskip : skipn (Z.to_nat (BlobStream._offset (fst s)))
                        (logical_file blobs refs)
                      = skipn (Z.to_nat (BlobStream._offset (fst s) - offset r)) b
                        ++ logical_file blobs post).
      { rewrite Erefs, skipn_logical_file; try lia.
        - unfold chunk_of. now rewrite Hb.
        - now rewrite <- Erefs. }
      assert (Hend : offset r + size r <= total_size refs).
      { rewrite Erefs, total_size_app. simpl.
        assert (0 <= total_size post); [|lia].
        rewrite Erefs in Hst. apply Forall_app in Hst as [_ Hst].
        inversion Hst as [|? ? _ Hp]; subst.
        rewrite <- (logical_file_length Hp). lia. }
      destruct b as [|x b]; [simpl in Hblen; lia|].
      cbn [BlobStream.truthy]. unfold slice_from. rewrite Hoff1.
      destruct (Z.leb_spec 0 (BlobStream._offset (fst s) - offset r)); [|lia].
      rewrite Hskip.
      assert (Hpart : Z.of_nat
                        (List.length
                           (skipn (Z.to_nat (BlobStream._offset (fst s) - offset r))
                              (x :: b)))
                      = offset r + size r - BlobStream._offset (fst s)).
      { rewrite length_skipn. lia. }
      destruct (skipn (Z.to_nat (BlobStream._offset (fst s) - offset r)) (x :: b))
        as [|y part'] eqn:Epart; [simpl in Hpart; lia|].
      change (Z.of_nat (S (List.length part')))
        with (Z.of_nat (List.length (y :: part'))).
      set (part := y :: part') in *.
      rewrite Z.min_r by lia.
      destruct (IH length (acc ++ part)
                  (BlobStream.with_offset (fst s1)
                     (BlobStream._offset (fst s)
                      + Z.of_nat (List.length part)), snd s1))
        as (s' & Eloop & Hs' & Hoff').
      { now apply stream_over_with_offset. }
      { cbn [fst BlobStream._offset BlobStream.with_offset]. lia. }
      { cbn [fst BlobStream._offset BlobStream.with_offset].
        rewrite length_app. lia. }
      { rewrite length_app. assert (0 < Z.of_nat (List.length part)); [|lia].
        unfold part. simpl List.length. lia. }
      exists s'. rewrite Eloop. split; [|auto].
      cbn [fst BlobStream._offset BlobStream.with_offset].
      replace (BlobStream._offset (fst s) + Z.of_nat (List.length part))
        with (offset r + size r) by lia.
      rewrite Erefs, skipn_logical_file; try lia.
      2:{ now rewrite <- Erefs. }
      unfold chunk_of. rewrite Hb.
      rewrite (skipn_all2 (x :: b)) by lia.
      now rewrite <- app_assoc.
    + rewrite (@_GetChunk_end blobs refs Hc Hst s Hs) by lia.
      cbn [BlobStream.truthy]. exists s.
      rewrite skipn_logical_file_end by (auto; lia). rewrite app_nil_r.
      split; [reflexivity|]. split; [assumption | lia].
Qed.

Lemma contiguous_app_inv start pre r post :
  contiguous_from start (pre ++ r :: post) ->
  offset r = start + total_size pre
  /\ 0 <= total_size pre
  /\ 0 <= size r
  /\ contiguous_from (offset r + size r) post.
Proof.
  revert start; induction pre as [|x pre IH]; intros start; simpl.
  - intros (Ho & Hs & Hc). rewrite Ho. repeat split; auto; lia.
  - intros (Ho & Hs & Hc). destruct (IH _ Hc) as (H1 & H2 & H3 & H4).
    repeat split; auto; lia.
Qed.

(** On a contiguous list the reference covering an offset is the one the
    locator finds. *)
Lemma find_covers_unique start pre r post c :
  contiguous_from start (pre ++ r :: post) ->
  offset r <= c < offset r + size r ->
  find (BlobStream.covers c) (pre ++ r :: post) = Some r.
Proof.
  revert start; induction pre as [|x pre IH]; intros start Hc Hr; simpl.
  - unfold BlobStream.covers. rewrite Z.geb_leb.
    destruct (Z.leb_spec (offset r) c); [|lia].
    destruct (Z.ltb_spec c (offset r + size r)); [reflexivity | lia].
  - destruct Hc as (Ho & Hs & Hc).
    destruct (contiguous_app_inv _ _ _ _ Hc) as (H1 & H2 & _).
    unfold BlobStream.covers at 1.
    destruct (Z.ltb_spec c (offset x + size x)); [lia|].
    rewrite andb_false_r. now apply (IH _ Hc).
Qed.

(** The reference the locator finds lies inside the file. *)
Lemma found_ref_inside blobs refs c r :
  contiguous_from 0 refs ->
  Forall (stored blobs) refs ->
  0 <= c ->
  find (BlobStream.covers c) refs = Some r ->
  exists pre post,
    refs = pre ++ r :: post
    /\ 0 <= offset r <= c
    /\ c < offset r + size r <= total_size refs.
Proof.
  intros Hc Hst H0 Hf.
  pose proof (@find_covers 0 refs c Hc H0) as Hfc. rewrite Hf in Hfc.
  destruct Hfc as (pre & post & Erefs & Ho & Hr).
  exists pre, post. split; [exact Erefs|].
  subst refs. destruct (contiguous_app_inv _ _ _ _ Hc) as (_ & Hpre & _ & Hpost).
  apply total_size_nonneg in Hpost.
  rewrite total_size_app. simpl. lia.
Qed.

(** X1.  [Seek] with a whence other than [SEEK_SET], [SEEK_CUR] and
    [SEEK_END] raises [ValueError] and moves nothing. *)
Theorem X1_Seek_unknown_whence (s : BlobStream.t * World) (off whence : Z) :
  whence <> SEEK_SET -> whence <> SEEK_CUR -> whence <> SEEK_END ->
  BlobStream.Seek off whence s = (Raise (ValueError whence), s).
Proof.
  intros H0 H1 H2. unfold BlobStream.Seek, bind, BlobStream.self. simpl.
  destruct (Z.eqb_spec whence SEEK_SET); [contradiction|].
  destruct (Z.eqb_spec whence SEEK_CUR); [contradiction|].
  destruct (Z.eqb_spec whence SEEK_END); [contradiction|].
  reflexivity.
Qed.

Lemma X1_Seek_unknown_whence_witness :
  BlobStream.Seek 1 3 (foobar_stream 10)
  = (Raise (ValueError 3), foobar_stream 10).
Proof.
  apply (X1_Seek_unknown_whence (foobar_stream 10) 1 (whence := 3));
    discriminate.
Defined.

(** X2.  On any stream, whatever its reference list and whatever the
    blob store holds, a read of a length within the ceiling returns, and
    returns at most that many bytes (none for a negative length). *)
Theorem X2_Read_returns_at_most_length (s : BlobStream.t * World) (n : Z) :
  n <= BlobStream._max_unbound_read (fst s) ->
  exists data s',
    BlobStream.Read (Some n) s = Some (Ok data, s')
    /\ Z.of_nat (List.length data) <= Z.max 0 n.
Proof.
  intros Hn. unfold BlobStream.Read.
  destruct (Z.gtb_spec n (BlobStream._max_unbound_read (fst s))); [lia|].
  destruct (Z.le_gt_cases 0 n) as [Hpos|Hneg].
  - destruct (@Read_loop_terminates (Z.to_nat n) n [] s) as (res & s' & ->);
      [simpl; lia|].
    eexists _, _. split; [reflexivity|].
    pose proof (slice_to_length res Hpos). lia.
  - rewrite Read_loop_done by (simpl; lia).
    eexists _, _. split; [reflexivity|].
    unfold slice_to. destruct (0 <=? n); rewrite firstn_nil; simpl; lia.
Qed.

Lemma X2_Read_returns_at_most_length_witness :
  exists data s',
    BlobStream.Read (Some 4) lossy_stream = Some (Ok data, s')
    /\ Z.of_nat (List.length data) <= Z.max 0 4.
Proof.
  apply (@X2_Read_returns_at_most_length lossy_stream 4). simpl. lia.
Defined.

(** X3.  Whatever a read returns or raises, it changes only the cursor
    and the cache of the object and the log of fetches: the reference
    list, size, identity and ceiling of the stream and the contents of
    the blob store and of the metadata store stay as they were, and each
    fetch it makes asks for the single blob of a listed reference. *)
Theorem X3_Read_changes_only_cursor_cache_and_log
  (length : option Z) (s : BlobStream.t * World) r s' :
  BlobStream.Read length s = Some (r, s') -> read_frame s s'.
Proof. intros H. now apply Read_frame in H. Qed.

Lemma X3_Read_changes_only_cursor_cache_and_log_witness :
  read_frame (foobar_stream 10)
    (snd (match BlobStream.Read (Some 4) (foobar_stream 10) with
          | Some x => x
          | None => (Ok [], foobar_stream 10)
          end)).
Proof.
  apply (@X3_Read_changes_only_cursor_cache_and_log (Some 4) (foobar_stream 10)
           (Ok [x66; x6f; x6f; x62])).
  vm_compute. reflexivity.
Defined.

(** X4.  The cache invariant: the constructor leaves the cache empty,
    and every read that returns, and every seek, keeps the cached chunk
    equal to what the blob store holds for the cached reference.  (A
    read that a backend exception interrupts is not covered: the
    reference is stored before the fetch.) *)
Theorem X4_cache_stays_coherent :
  (forall refs h w o w',
     BlobStream.__init__ refs h w = (Ok o, w') -> cache_coherent (o, w'))
  /\ (forall length s data s',
        cache_coherent s ->
        BlobStream.Read length s = Some (Ok data, s') -> cache_coherent s')
  /\ (forall off whence s,
        cache_coherent s ->
        cache_coherent (snd (BlobStream.Seek off whence s))).
Proof.
  split; [|split].
  - intros refs h w o w'. unfold BlobStream.__init__, bind, get, ret, raise.
    simpl. destruct (last_item refs); [|discriminate].
    intros [= <- <-] r. discriminate.
  - intros length s data s' Hc H. apply Read_frame in H as [_ H]. auto.
  - intros off whence s Hc.
    unfold BlobStream.Seek, bind, BlobStream.self, BlobStream.set_self, raise.
    simpl.
    destruct (whence =? SEEK_SET); [exact Hc|].
    destruct (whence =? SEEK_CUR); [exact Hc|].
    destruct (whence =? SEEK_END); [exact Hc|].
    simpl. now destruct s.
Qed.

Lemma X4_cache_stays_coherent_witness :
  cache_coherent
    (snd (match BlobStream.Read (Some 4) (foobar_stream 10) with
          | Some x => x
          | None => (Ok [], foobar_stream 10)
          end)).
Proof.
  destruct X4_cache_stays_coherent as (_ & Hread & _).
  apply (Hread (Some 4) (foobar_stream 10) [x66; x6f; x6f; x62]).
  - intros r. discriminate.
  - vm_compute. reflexivity.
Defined.

Lemma bytes_at_add (b : bytes) (c n1 n2 : Z) :
  0 <= c -> 0 <= n1 -> 0 <= n2 ->
  bytes_at b c n1 ++ bytes_at b (c + n1) n2 = bytes_at b c (n1 + n2).
Proof.
  intros Hc H1 H2. unfold bytes_at.
  replace (Z.to_nat (c + n1)) with (Z.to_nat n1 + Z.to_nat c)%nat by lia.
  rewrite <- skipn_skipn.
  replace (Z.to_nat (n1 + n2)) with (Z.to_nat n1 + Z.to_nat n2)%nat by lia.
  set (l := skipn (Z.to_nat c) b).
  rewrite firstn_skipn_comm.
  etransitivity; [|apply (firstn_skipn (Z.to_nat n1))].
  f_equal. rewrite firstn_firstn. f_equal. lia.
Qed.

(** X5.  A lost blob is read as the end of the stream: when the blob of
    the reference under the cursor is not in the store, a read returns no
    bytes, raises nothing and leaves the cursor where it was. *)
Theorem X5_missing_blob_reads_empty (s : BlobStream.t * World)
  (r : BlobReference) (n : Z) :
  cache_coherent s ->
  find (BlobStream.covers (BlobStream._offset (fst s)))
    (BlobStream._blob_refs (fst s)) = Some r ->
  getitem (BLOBS (snd s)) (blob_id r) = None ->
  n <= BlobStream._max_unbound_read (fst s) ->
  exists s',
    BlobStream.Read (Some n) s = Some (Ok [], s')
    /\ BlobStream._offset (fst s') = BlobStream._offset (fst s).
Proof.
  intros Hc Hf Hmiss Hn. unfold BlobStream.Read.
  destruct (Z.gtb_spec n (BlobStream._max_unbound_read (fst s))); [lia|].
  assert (Hnil : slice_to [] n = []).
  { unfold slice_to. destruct (0 <=? n); apply firstn_nil. }
  destruct (Z.le_gt_cases n 0) as [Hneg|Hpos].
  - rewrite Read_loop_done by (simpl; lia). rewrite Hnil. eauto.
  - destruct (Z.to_nat n) as [|fuel] eqn:En; [lia|].
    cbn [BlobStream.Read_loop]. simpl List.length.
    destruct (Z.ltb_spec (Z.of_nat 0) n); [|lia].
    rewrite (_GetChunk_value Hc Hf), Hmiss. cbn [BlobStream.truthy].
    rewrite Hnil. eexists. split; [reflexivity|].
    now destruct (current_ref_neq _ r).
Qed.

Lemma X5_missing_blob_reads_empty_witness :
  exists s',
    BlobStream.Read (Some 2)
      (BlobStream.with_offset (fst lossy_stream) 4, snd lossy_stream)
    = Some (Ok [], s')
    /\ BlobStream._offset (fst s') = 4.
Proof.
  apply (@X5_missing_blob_reads_empty
           (BlobStream.with_offset (fst lossy_stream) 4, snd lossy_stream)
           {| offset := 3; size := 3; blob_id := id_b |} 2).
  - intros r. discriminate.
  - reflexivity.
  - reflexivity.
  - simpl. lia.
Defined.

(** X6.  A read that the chunk under the cursor can satisfy alone is
    exact: it returns the [n] bytes at the cursor, [Tell()] afterwards is
    the old cursor plus [n], and that chunk is left in the cache. *)
Theorem X6_read_within_chunk_is_exact blobs refs s r n :
  contiguous_from 0 refs ->
  Forall (stored blobs) refs ->
  stream_over blobs refs s ->
  find (BlobStream.covers (BlobStream._offset (fst s))) refs = Some r ->
  0 < n ->
  BlobStream._offset (fst s) + n <= offset r + size r ->
  n <= BlobStream._max_unbound_read (fst s) ->
  exists data s',
    BlobStream.Read (Some n) s = Some (Ok data, s')
    /\ data = bytes_at (logical_file blobs refs) (BlobStream._offset (fst s)) n
    /\ Z.of_nat (List.length data) = n
    /\ BlobStream.Tell s' = (Ok (BlobStream._offset (fst s) + n), s')
    /\ BlobStream._current_ref (fst s') = Some r.
Proof.
  intros Hc Hst Hs Hf Hn Hfit Hmax.
  rewrite (Read_within_chunk Hc Hst Hs Hf Hn Hfit Hmax).
  eexists _, _. split; [reflexivity|]. split; [reflexivity|].
  assert (H0 : 0 <= BlobStream._offset (fst s)).
  { destruct (Z.lt_ge_cases (BlobStream._offset (fst s)) 0) as [Hneg|]; [|lia].
    rewrite (@find_covers_none_below 0 refs _ Hc Hneg) in Hf. discriminate. }
  destruct (found_ref_inside Hc Hst H0 Hf) as (pre & post & _ & Hlo & Hhi).
  pose proof (logical_file_length Hst) as Hlen.
  split; [|split].
  - unfold bytes_at. rewrite length_firstn, length_skipn. lia.
  - reflexivity.
  - destruct (current_ref_neq _ r) eqn:E; [reflexivity|].
    now apply current_ref_neq_false in E.
Qed.

Lemma X6_read_within_chunk_is_exact_witness :
  exists data s',
    BlobStream.Read (Some 2) (foobar_stream 10) = Some (Ok data, s')
    /\ data = bytes_at (logical_file [(id_a, foo); (id_b, bar)] foobar_refs)
                (BlobStream._offset (fst (foobar_stream 10))) 2
    /\ Z.of_nat (List.length data) = 2
    /\ BlobStream.Tell s'
       = (Ok (BlobStream._offset (fst (foobar_stream 10)) + 2), s')
    /\ BlobStream._current_ref (fst s')
       = Some {| offset := 0; size := 3; blob_id := id_a |}.
Proof.
  apply (@X6_read_within_chunk_is_exact [(id_a, foo); (id_b, bar)] foobar_refs
           (foobar_stream 10) {| offset := 0; size := 3; blob_id := id_a |} 2
           foobar_contiguous foobar_stored (foobar_stream_over 10)).
  - reflexivity.
  - lia.
  - simpl. lia.
  - simpl. lia.
Defined.

(** X7.  Of two consecutive reads that stay inside one chunk, the first
    makes at most one fetch and the second makes none: it is served from
    the cached chunk.  Together they return the bytes one read of both
    lengths would. *)
Theorem X7_second_read_in_chunk_does_not_fetch blobs refs s r n1 n2 :
  contiguous_from 0 refs ->
  Forall (stored blobs) refs ->
  stream_over blobs refs s ->
  find (BlobStream.covers (BlobStream._offset (fst s))) refs = Some r ->
  0 < n1 -> 0 < n2 ->
  BlobStream._offset (fst s) + n1 + n2 <= offset r + size r ->
  n1 <= BlobStream._max_unbound_read (fst s) ->
  n2 <= BlobStream._max_unbound_read (fst s) ->
  exists d1 s1 d2 s2,
    BlobStream.Read (Some n1) s = Some (Ok d1, s1)
    /\ BlobStream.Read (Some n2) s1 = Some (Ok d2, s2)
    /\ (List.length (BLOBS_reads (snd s1))
        <= 1 + List.length (BLOBS_reads (snd s)))%nat
    /\ BLOBS_reads (snd s2) = BLOBS_reads (snd s1)
    /\ d1 ++ d2
       = bytes_at (logical_file blobs refs) (BlobStream._offset (fst s))
           (n1 + n2).
Proof.
  intros Hc Hst Hs Hf H1 H2 Hfit Hm1 Hm2.
  assert (H0 : 0 <= BlobStream._offset (fst s)).
  { destruct (Z.lt_ge_cases (BlobStream._offset (fst s)) 0) as [Hneg|]; [|lia].
    rewrite (@find_covers_none_below 0 refs _ Hc Hneg) in Hf. discriminate. }
  destruct (found_ref_inside Hc Hst H0 Hf) as (pre & post & Erefs & Hlo & Hhi).
  assert (Hfit1 : BlobStream._offset (fst s) + n1 <= offset r + size r) by lia.
  pose proof (Read_within_chunk Hc Hst Hs Hf H1 Hfit1 Hm1) as E1.
  destruct (@Read_bytes_at blobs refs Hc Hst n1 s Hs H0 Hm1)
    as (s1 & E1' & Hs1 & Hmax1).
  rewrite E1 in E1'. injection E1' as Es1.
  assert (Hoff1 : BlobStream._offset (fst s1) = BlobStream._offset (fst s) + n1)
    by now rewrite <- Es1.
  assert (Hcur1 : BlobStream._current_ref (fst s1) = Some r).
  { rewrite <- Es1. simpl.
    destruct (current_ref_neq _ r) eqn:E; [reflexivity|].
    now apply current_ref_neq_false in E. }
  assert (Hlog1 : (List.length (BLOBS_reads (snd s1))
                   <= 1 + List.length (BLOBS_reads (snd s)))%nat).
  { rewrite <- Es1. simpl. destruct (current_ref_neq _ r); simpl; lia. }
  assert (Hf1 : find (BlobStream.covers (BlobStream._offset (fst s1))) refs
                = Some r).
  { rewrite Erefs. apply (@find_covers_unique 0).
    - now rewrite <- Erefs.
    - lia. }
  assert (Hfit2 : BlobStream._offset (fst s1) + n2 <= offset r + size r) by lia.
  assert (Hm2' : n2 <= BlobStream._max_unbound_read (fst s1)) by lia.
  pose proof (Read_within_chunk Hc Hst Hs1 Hf1 H2 Hfit2 Hm2') as E2.
  assert (Hneq : current_ref_neq (BlobStream._current_ref (fst s1)) r = false)
    by now apply current_ref_neq_false.
  rewrite Hneq in E2.
  eexists _, s1, _, _. split; [rewrite E1, Es1; reflexivity|].
  split; [exact E2|]. split; [exact Hlog1|]. split; [reflexivity|].
  rewrite Hoff1. apply bytes_at_add; lia.
Qed.

Lemma X7_second_read_in_chunk_does_not_fetch_witness :
  exists d1 s1 d2 s2,
    BlobStream.Read (Some 1) (foobar_stream 10) = Some (Ok d1, s1)
    /\ BlobStream.Read (Some 2) s1 = Some (Ok d2, s2)
    /\ (List.length (BLOBS_reads (snd s1))
        <= 1 + List.length (BLOBS_reads (snd (foobar_stream 10))))%nat
    /\ BLOBS_reads (snd s2) = BLOBS_reads (snd s1)
    /\ d1 ++ d2
       = bytes_at (logical_file [(id_a, foo); (id_b, bar)] foobar_refs)
           (BlobStream._offset (fst (foobar_stream 10))) (1 + 2).
Proof.
  apply (@X7_second_read_in_chunk_does_not_fetch
           [(id_a, foo); (id_b, bar)] foobar_refs (foobar_stream 10)
           {| offset := 0; size := 3; blob_id := id_a |} 1 2
           foobar_contiguous foobar_stored (foobar_stream_over 10)).
  - reflexivity.
  - lia.
  - lia.
  - simpl. lia.
  - simpl. lia.
  - simpl. lia.
Defined.

(** X8.  A read that asks for at least what remains of the file, from a
    cursor inside it, returns the rest of the file and leaves the cursor
    at the size of the stream; [Read()] with no length does, when the
    rest is within the ceiling. *)
Theorem X8_read_to_end_leaves_cursor_at_size blobs refs s :
  contiguous_from 0 refs ->
  Forall (stored blobs) refs ->
  stream_over blobs refs s ->
  0 <= BlobStream._offset (fst s) <= total_size refs ->
  (forall n,
     total_size refs - BlobStream._offset (fst s) <= n ->
     n <= BlobStream._max_unbound_read (fst s) ->
     exists s',
       BlobStream.Read (Some n) s
       = Some (Ok (skipn (Z.to_nat (BlobStream._offset (fst s)))
                     (logical_file blobs refs)), s')
       /\ BlobStream.Tell s' = (Ok (BlobStream.size (fst s')), s')
       /\ BlobStream.size (fst s') = total_size refs)
  /\ (total_size refs - BlobStream._offset (fst s)
      <= BlobStream._max_unbound_read (fst s) ->
      exists s',
        BlobStream.Read None s
        = Some (Ok (skipn (Z.to_nat (BlobStream._offset (fst s)))
                      (logical_file blobs refs)), s')
        /\ BlobStream.Tell s' = (Ok (BlobStream.size (fst s')), s')
        /\ BlobStream.size (fst s') = total_size refs).
Proof.
  intros Hc Hst Hs H0.
  pose proof (logical_file_length Hst) as Hlen.
  assert (G : forall n,
             total_size refs - BlobStream._offset (fst s) <= n ->
             n <= BlobStream._max_unbound_read (fst s) ->
             exists s',
               BlobStream.Read (Some n) s
               = Some (Ok (skipn (Z.to_nat (BlobStream._offset (fst s)))
                             (logical_file blobs refs)), s')
               /\ BlobStream.Tell s' = (Ok (BlobStream.size (fst s')), s')
               /\ BlobStream.size (fst s') = total_size refs).
  { intros n Hn Hmax. unfold BlobStream.Read.
    destruct (Z.gtb_spec n (BlobStream._max_unbound_read (fst s))); [lia|].
    destruct (@Read_loop_to_end blobs refs (Z.to_nat n) Hc Hst n [] s Hs H0)
      as (s' & -> & Hs' & Hoff'); simpl List.length; try lia.
    exists s'. simpl app. unfold slice_to.
    destruct (Z.leb_spec 0 n); [|lia].
    rewrite firstn_all2 by (rewrite length_skipn; lia).
    split; [reflexivity|].
    unfold BlobStream.Tell, BlobStream.size, bind, BlobStream.self, ret. simpl.
    rewrite Hoff', (over_length Hs'). auto. }
  split; [exact G|].
  intros Hmax.
  change (BlobStream.Read None s)
    with (BlobStream.Read
            (Some (BlobStream._length (fst s) - BlobStream._offset (fst s))) s).
  rewrite (over_length Hs). apply G; lia.
Qed.

Lemma X8_read_to_end_leaves_cursor_at_size_witness :
  exists s',
    BlobStream.Read None (foobar_stream 10)
    = Some (Ok (skipn (Z.to_nat (BlobStream._offset (fst (foobar_stream 10))))
                  (logical_file [(id_a, foo); (id_b, bar)] foobar_refs)), s')
    /\ BlobStream.Tell s' = (Ok (BlobStream.size (fst s')), s')
    /\ BlobStream.size (fst s') = total_size foobar_refs.
Proof.
  destruct (@X8_read_to_end_leaves_cursor_at_size
              [(id_a, foo); (id_b, bar)] foobar_refs (foobar_stream 10)
              foobar_contiguous foobar_stored (foobar_stream_over 10))
    as [_ H].
  - simpl. lia.
  - apply H. simpl. lia.
Defined.

(** X9.  With the cursor before the start of the file (as a seek to a
    negative position leaves it), every read within the ceiling returns
    no bytes, makes no fetch and moves nothing. *)
Theorem X9_read_before_start_is_empty (s : BlobStream.t * World) (n : Z) :
  contiguous_from 0 (BlobStream._blob_refs (fst s)) ->
  BlobStream._offset (fst s) < 0 ->
  n <= BlobStream._max_unbound_read (fst s) ->
  BlobStream.Read (Some n) s = Some (Ok [], s).
Proof.
  intros Hc Hneg Hn. unfold BlobStream.Read.
  destruct (Z.gtb_spec n (BlobStream._max_unbound_read (fst s))); [lia|].
  assert (Hnil : slice_to [] n = []).
  { unfold slice_to. destruct (0 <=? n); apply firstn_nil. }
  destruct (Z.le_gt_cases n 0) as [Hle|Hpos].
  - rewrite Read_loop_done by (simpl; lia). now rewrite Hnil.
  - destruct (Z.to_nat n) as [|fuel] eqn:En; [lia|].
    cbn [BlobStream.Read_loop]. simpl List.length.
    destruct (Z.ltb_spec (Z.of_nat 0) n); [|lia].
    unfold BlobStream._GetChunk, bind, BlobStream.self. simpl.
    rewrite (@find_covers_none_below 0 _ _ Hc Hneg). simpl.
    now rewrite Hnil.
Qed.

Lemma X9_read_before_start_is_empty_witness :
  BlobStream.Read (Some 5)
    (BlobStream.with_offset (fst (foobar_stream 10)) (-1),
     snd (foobar_stream 10))
  = Some (Ok [], (BlobStream.with_offset (fst (foobar_stream 10)) (-1),
                  snd (foobar_stream 10))).
Proof.
  apply (@X9_read_before_start_is_empty
           (BlobStream.with_offset (fst (foobar_stream 10)) (-1),
            snd (foobar_stream 10)) 5).
  - exact foobar_contiguous.
  - simpl. lia.
  - simpl. lia.
Defined.

(** X10.  Relative seeks compose with reads: after [Seek(-k, SEEK_END)],
    for 0 <= k <= size within the ceiling, [Read()] returns the last [k]
    bytes of the file; after [Seek(d, SEEK_CUR)] landing at or after the
    start, [Read(n)] returns the bytes at the old cursor plus [d]. *)
Theorem X10_relative_seek_then_read blobs refs s :
  contiguous_from 0 refs ->
  Forall (stored blobs) refs ->
  stream_over blobs refs s ->
  (forall k,
     0 <= k <= total_size refs ->
     k <= BlobStream._max_unbound_read (fst s) ->
     exists s1 s2,
       BlobStream.Seek (- k) SEEK_END s = (Ok tt, s1)
       /\ BlobStream.Read None s1
          = Some (Ok (skipn (Z.to_nat (total_size refs - k))
                        (logical_file blobs refs)), s2)
       /\ Z.of_nat (List.length
                      (skipn (Z.to_nat (total_size refs - k))
                         (logical_file blobs refs))) = k)
  /\ (forall d n,
        0 <= BlobStream._offset (fst s) + d ->
        n <= BlobStream._max_unbound_read (fst s) ->
        exists s1 s2,
          BlobStream.Seek d SEEK_CUR s = (Ok tt, s1)
          /\ BlobStream.Read (Some n) s1
             = Some (Ok (bytes_at (logical_file blobs refs)
                           (BlobStream._offset (fst s) + d) n), s2)).
Proof.
  intros Hc Hst Hs.
  pose proof (logical_file_length Hst) as Hlen.
  split.
  - intros k Hk Hmax.
    exists (BlobStream.with_offset (fst s) (BlobStream._length (fst s) + - k),
            snd s).
    destruct (@Read_bytes_at blobs refs Hc Hst k
                (BlobStream.with_offset (fst s)
                   (BlobStream._length (fst s) + - k), snd s))
      as (s2 & E & _).
    { now apply stream_over_with_offset. }
    { simpl. rewrite (over_length Hs). lia. }
    { simpl. exact Hmax. }
    exists s2. split; [reflexivity|]. split.
    + change (BlobStream.Read None ?x)
        with (BlobStream.Read
                (Some (BlobStream._length (fst x) - BlobStream._offset (fst x)))
                x).
      simpl fst in *. cbn [BlobStream._length BlobStream._offset
                             BlobStream.with_offset] in *.
      replace (BlobStream._length (fst s)
               - (BlobStream._length (fst s) + - k)) with k by lia.
      rewrite E. unfold bytes_at. rewrite (over_length Hs).
      replace (total_size refs + - k) with (total_size refs - k) by lia.
      rewrite firstn_all2; [reflexivity|]. rewrite length_skipn. lia.
    + rewrite length_skipn. lia.
  - intros d n H0 Hmax.
    exists (BlobStream.with_offset (fst s) (BlobStream._offset (fst s) + d),
            snd s).
    destruct (@Read_bytes_at blobs refs Hc Hst n
                (BlobStream.with_offset (fst s)
                   (BlobStream._offset (fst s) + d), snd s))
      as (s2 & E & _).
    { now apply stream_over_with_offset. }
    { simpl. exact H0. }
    { simpl. exact Hmax. }
    exists s2. split; [reflexivity | exact E].
Qed.

Lemma X10_relative_seek_then_read_witness :
  exists s1 s2,
    BlobStream.Seek (- 2) SEEK_END (foobar_stream 10) = (Ok tt, s1)
    /\ BlobStream.Read None s1
       = Some (Ok (skipn (Z.to_nat (total_size foobar_refs - 2))
                     (logical_file [(id_a, foo); (id_b, bar)] foobar_refs)),
               s2)
    /\ Z.of_nat (List.length
                   (skipn (Z.to_nat (total_size foobar_refs - 2))
                      (logical_file [(id_a, foo); (id_b, bar)] foobar_refs)))
       = 2.
Proof.
  destruct (@X10_relative_seek_then_read
              [(id_a, foo); (id_b, bar)] foobar_refs (foobar_stream 10)
              foobar_contiguous foobar_stored (foobar_stream_over 10))
    as [H _].
  apply (H 2); simpl; lia.
Defined.

(** * Further properties of composing *)

(** A call that returned found every blob it was given. *)
Lemma add_batch_present (H : hashlib) blobs ids batch :
  forall (l l' : locals H) w w',
    add_batch (fetched blobs ids) batch l w = (Ok l', w') ->
    forall k, In k batch -> getitem blobs k <> None.
Proof.
  induction batch as [|k0 batch IH]; intros l l' w w'; simpl; [tauto|].
  unfold bind, getitem_or_raise.
  destruct (getitem (fetched blobs ids) k0) as [[b|]|] eqn:E;
    simpl; try discriminate.
  apply getitem_fetched in E. intros Hrun k [<-|Hk].
  - congruence.
  - eapply IH; eauto.
Qed.

Lemma bind_ReadBlobs_logged {A : Type} (ids : list BlobID)
  (k : list (BlobID * option bytes) -> M World A) (w : World) :
  bind (ReadBlobs ids) k w = k (fetched (BLOBS w) ids) (logged ids w).
Proof. reflexivity. Qed.

Lemma add_batch_sha (H : hashlib) blobs ids batch :
  forall (l l' : locals H) w w',
    add_batch (fetched blobs ids) batch l w = (Ok l', w') ->
    sha256_state l'
    = fold_left (update H) (map (blob_of blobs) batch) (sha256_state l).
Proof.
  induction batch as [|k batch IH]; intros l l' w w'; simpl.
  - now intros [= <- <-].
  - unfold bind, getitem_or_raise.
    destruct (getitem (fetched blobs ids) k) as [[b|]|] eqn:E;
      simpl; try discriminate.
    apply getitem_fetched in E. intros Hrun. apply IH in Hrun.
    rewrite Hrun. simpl. unfold blob_of. now rewrite <- E.
Qed.

(** The trace of a run of the loops that reached the end: every blob
    asked for was found, one [ReadBlobs] call was made per batch, and the
    hash object was fed the blobs in the order of the ids. *)
Lemma add_batches_run (H : hashlib) fetch_order batches :
  forall (l l' : locals H) w w',
    add_batches fetch_order batches l w = (Ok l', w') ->
    (forall k, In k (List.concat batches) -> getitem (BLOBS w) k <> None)
    /\ BLOBS_reads w' = rev (map fetch_order batches) ++ BLOBS_reads w
    /\ path_history w' = path_history w
    /\ sha256_state l'
       = fold_left (update H) (map (blob_of (BLOBS w)) (List.concat batches))
           (sha256_state l).
Proof.
  induction batches as [|batch batches IH]; intros l l' w w'.
  - simpl. intros [= <- <-]. repeat split; tauto.
  - cbn [add_batches List.concat]. rewrite bind_ReadBlobs_logged.
    unfold bind at 1.
    pose proof (check_found_world (fetched (BLOBS w) (fetch_order batch))
                  (logged (fetch_order batch) w)) as Hcw.
    destruct (check_found _ _) as [[[]|e] w2]; [|discriminate].
    simpl in Hcw. subst w2. unfold bind at 1.
    destruct (add_batch _ batch l _) as [[l1|e] w2] eqn:E1; [|discriminate].
    pose proof (add_batch_world (fetched (BLOBS w) (fetch_order batch)) batch l
                  (logged (fetch_order batch) w)) as Haw.
    rewrite E1 in Haw. simpl in Haw. subst w2.
    pose proof (@add_batch_present H _ _ _ _ _ _ _ E1) as Hpres.
    pose proof E1 as Hsha1. apply add_batch_sha in Hsha1.
    intros Hrun. apply IH in Hrun as (Hall & Hlog & Hpaths & Hsha).
    simpl in Hall, Hlog, Hpaths, Hsha. split; [|split; [|split]].
    + intros k Hk. apply in_app_or in Hk as [Hk|Hk]; auto.
    + rewrite Hlog. simpl. now rewrite <- app_assoc.
    + exact Hpaths.
    + now rewrite Hsha, Hsha1, map_app, fold_left_app.
Qed.

Lemma AddFile_run (H : hashlib) fetch_order ids w hash_id w' :
  AddFileWithUnknownHash H fetch_order ids w = (Ok hash_id, w') ->
  (forall k, In k ids -> getitem (BLOBS w) k <> None)
  /\ BLOBS_reads w'
     = rev (map fetch_order (Batch ids _BLOBS_READ_BATCH_SIZE)) ++ BLOBS_reads w
  /\ path_history w' = path_history w
  /\ hash_id
     = digest H (fold_left (update H) (map (blob_of (BLOBS w)) ids) (new H)).
Proof.
  unfold AddFileWithUnknownHash. unfold bind at 1. cbv beta.
  destruct (add_batches _ _ _ w) as [[l|e] w1] eqn:E; [|discriminate].
  apply add_batches_run in E as (Hall & Hlog & Hpaths & Hsha).
  rewrite Batch_concat in Hall, Hsha. simpl in Hsha.
  unfold bind, WriteHashBlobReferences, ret. intros [= <- <-]. simpl.
  now rewrite Hsha.
Qed.

Lemma Batch_from_bound {A : Type} (size : nat) (items : list A) :
  (0 < size)%nat ->
  forall batch,
    (List.length batch < size)%nat ->
    Forall (fun b => (List.length b <= size)%nat) (Batch_from batch items size).
Proof.
  intros Hsize. induction items as [|x items IH]; intros batch Hb; simpl.
  - destruct batch; constructor; [simpl in *; lia | constructor].
  - destruct (Nat.eqb_spec (List.length (batch ++ [x])) size) as [E|E].
    + constructor; [lia|]. apply IH. simpl. lia.
    + apply IH. rewrite length_app in *. simpl in *. lia.
Qed.

Lemma Batch_from_count {A : Type} (size : nat) (items : list A) :
  (0 < size)%nat ->
  forall batch,
    (List.length batch < size)%nat ->
    List.length (Batch_from batch items size)
    = ((List.length batch + List.length items + size - 1) / size)%nat.
Proof.
  intros Hsize. induction items as [|x items IH]; intros batch Hb; simpl.
  - destruct batch as [|y batch]; simpl.
    + symmetry. apply Nat.div_small. lia.
    + apply (Nat.div_unique _ _ 1%nat (List.length batch)); simpl in *; lia.
  - destruct (Nat.eqb_spec (List.length (batch ++ [x])) size) as [E|E].
    + simpl. rewrite IH by (simpl; lia). simpl.
      rewrite length_app in E. simpl in E.
      replace (List.length batch + S (List.length items) + size - 1)%nat
        with (1 * size + (List.length items + size - 1))%nat by lia.
      rewrite Nat.div_add_l by lia. lia.
    + rewrite IH by (rewrite length_app in *; simpl in *; lia).
      f_equal. rewrite length_app. simpl. lia.
Qed.

Lemma refs_from_ids blobs ids : forall start,
  map blob_id (refs_from blobs start ids) = ids.
Proof.
  induction ids as [|k ids IH]; intros start; simpl; [reflexivity|].
  f_equal. apply IH.
Qed.

(** X11.  What a successful [AddFileWithUnknownHash] persists is a
    well-formed reference list: one reference per id, in the order of
    the ids, starting at offset 0 and each starting where the previous
    one ends, with the sizes of the blobs in the store; its logical file
    is the concatenation of the blobs. *)
Theorem X11_persisted_references_are_contiguous (H : hashlib)
  fetch_order ids w hash_id w' :
  AddFileWithUnknownHash H fetch_order ids w = (Ok hash_id, w') ->
  exists refs,
    hash_blob_refs w' = (hash_id, refs) :: hash_blob_refs w
    /\ map blob_id refs = ids
    /\ contiguous_from 0 refs
    /\ Forall (stored (BLOBS w)) refs
    /\ logical_file (BLOBS w) refs
       = List.concat (map (blob_of (BLOBS w)) ids).
Proof.
  intros Hrun.
  destruct (AddFile_persists _ _ _ _ Hrun) as (Hrefs & _ & _).
  destruct (AddFile_run _ _ _ _ Hrun) as (Hall & _).
  exists (refs_from (BLOBS w) 0 ids). split; [exact Hrefs|]. split.
  - apply refs_from_ids.
  - split; [apply refs_from_contiguous|].
    split; [now apply refs_from_stored | apply refs_from_logical_file].
Qed.

Lemma X11_persisted_references_are_contiguous_witness :
  exists refs,
    hash_blob_refs
      (snd (AddFileWithUnknownHash (buffered (fun b => b)) dedup
              [id_a; id_b; id_a] (sample_world 10)))
    = (foo ++ bar ++ foo, refs) :: hash_blob_refs (sample_world 10)
    /\ map blob_id refs = [id_a; id_b; id_a]
    /\ contiguous_from 0 refs
    /\ Forall (stored (BLOBS (sample_world 10))) refs
    /\ logical_file (BLOBS (sample_world 10)) refs
       = List.concat (map (blob_of (BLOBS (sample_world 10)))
                        [id_a; id_b; id_a]).
Proof.
  apply (@X11_persisted_references_are_contiguous (buffered (fun b => b)) dedup
           [id_a; id_b; id_a] (sample_world 10) (foo ++ bar ++ foo)).
  vm_compute. reflexivity.
Defined.

Lemma getitem_head {V : Type} (k : bytes) (v : V) (d : list (bytes * V)) :
  getitem ((k, v) :: d) k = Some v.
Proof. simpl. now rewrite bytes_eqb_refl. Qed.

(** X12.  The empty file: composing no chunk makes no [ReadBlobs] call,
    returns the digest of a hash object that was fed nothing and records
    it with an empty reference list.  [CheckHashes] then reports that
    hash as absent, and opening a path bound to it (the digest being the
    32 bytes of a SHA-256 id) fails with the [IndexError] of the
    constructor. *)
Theorem X12_empty_file_is_written_but_cannot_be_opened (H : hashlib)
  (fetch_order : list BlobID -> list BlobID) (w : World) :
  let empty_hash := digest H (new H) in
  exists w',
    AddFileWithUnknownHash H fetch_order [] w = (Ok empty_hash, w')
    /\ BLOBS_reads w' = BLOBS_reads w
    /\ hash_blob_refs w' = (empty_hash, []) :: hash_blob_refs w
    /\ CheckHashes [empty_hash] w' = (Ok [(empty_hash, false)], w')
    /\ (forall client_path max_timestamp path_info,
          List.length empty_hash = 32%nat ->
          fst (ReadLatestPathInfosWithHashBlobReferences
                 client_path max_timestamp w') = Ok (Some path_info) ->
          hash_entry_sha256 path_info = empty_hash ->
          OpenFile client_path max_timestamp w' = (Raise IndexError, w')).
Proof.
  intros empty_hash.
  set (w' := snd (WriteHashBlobReferences empty_hash [] w)).
  exists w'. split; [reflexivity|].
  split; [reflexivity|]. split; [reflexivity|]. split.
  - unfold CheckHashes, ReadHashBlobReferences_dict, bind, ret. simpl.
    now rewrite bytes_eqb_refl.
  - intros p m pi H32 Hres Hh. rewrite OpenFile_cases.
    unfold ReadLatestPathInfosWithHashBlobReferences in Hres.
    cbn [fst] in Hres. injection Hres as Hres. rewrite Hres. cbv zeta.
    rewrite Hh, H32. simpl Nat.eqb.
    change (hash_blob_refs w') with ((empty_hash, []) :: hash_blob_refs w).
    now rewrite getitem_head.
Qed.

Lemma X12_empty_file_is_written_but_cannot_be_opened_witness :
  exists w',
    AddFileWithUnknownHash (buffered pad32) dedup [] bound_to_empty_hash
    = (Ok (pad32 []), w')
    /\ OpenFile tmp_x None w' = (Raise IndexError, w').
Proof.
  destruct (X12_empty_file_is_written_but_cannot_be_opened
              (buffered pad32) dedup bound_to_empty_hash)
    as (w' & Hrun & _ & _ & _ & Hopen).
  specialize (Hopen tmp_x None
                {| timestamp := 5; hash_entry_sha256 := pad32 [] |}).
  exists w'. split.
  - exact Hrun.
  - apply Hopen; [reflexivity| |reflexivity].
    injection Hrun as <-. reflexivity.
Defined.

(** With every blob present the call returns the digest of the hash
    object fed with the blobs in the order of the ids. *)
Lemma AddFile_returns (H : hashlib)
  (fetch_order : list BlobID -> list BlobID) (ids : list BlobID)
  (blobs : list (BlobID * bytes)) (w : World) :
  (forall batch k, In k (fetch_order batch) <-> In k batch) ->
  BLOBS w = blobs ->
  (forall k, In k ids -> getitem blobs k <> None) ->
  exists w',
    AddFileWithUnknownHash H fetch_order ids w
    = (Ok (digest H (fold_left (update H) (map (blob_of blobs) ids) (new H))),
       w').
Proof.
  intros Horder Hb Hall.
  unfold AddFileWithUnknownHash. unfold bind at 1. cbv beta.
  destruct (@add_batches_ok H fetch_order Horder blobs
              (@Batch BlobID ids _BLOBS_READ_BATCH_SIZE)
              {| blob_refs := []; running_offset := 0;
                 sha256_state := new H |} w Hb)
    as (l' & w' & -> & Hsha).
  { now rewrite Batch_concat. }
  rewrite Batch_concat in Hsha. simpl in Hsha.
  unfold bind, WriteHashBlobReferences, ret. rewrite Hsha.
  eexists. reflexivity.
Qed.

(** X13.  Composing is idempotent: a second call with the same ids
    returns the same hash, and the reference list the metadata store
    then gives for that hash is the one it gave after the first call. *)
Theorem X13_composing_twice_is_idempotent (H : hashlib)
  fetch_order ids w hash_id w1 :
  (forall batch k, In k (fetch_order batch) <-> In k batch) ->
  AddFileWithUnknownHash H fetch_order ids w = (Ok hash_id, w1) ->
  exists w2,
    AddFileWithUnknownHash H fetch_order ids w1 = (Ok hash_id, w2)
    /\ ReadHashBlobReferences hash_id w2
       = (fst (ReadHashBlobReferences hash_id w1), w2)
    /\ BLOBS w2 = BLOBS w.
Proof.
  intros Horder Hrun1.
  destruct (AddFile_run _ _ _ _ Hrun1) as (Hall & _ & _ & Hh).
  destruct (AddFile_persists _ _ _ _ Hrun1) as (Hrefs1 & Hb1 & _).
  destruct (@AddFile_returns H fetch_order ids (BLOBS w) w1 Horder Hb1 Hall)
    as (w2 & Hrun2).
  rewrite <- Hh in Hrun2.
  destruct (AddFile_persists _ _ _ _ Hrun2) as (Hrefs2 & Hb2 & _).
  exists w2. split; [exact Hrun2|]. split; [|congruence].
  unfold ReadHashBlobReferences. simpl.
  now rewrite Hrefs2, Hrefs1, !getitem_head, Hb1.
Qed.

Lemma X13_composing_twice_is_idempotent_witness :
  exists w2,
    AddFileWithUnknownHash (buffered (fun b => b)) dedup [id_a; id_b]
      (snd (AddFileWithUnknownHash (buffered (fun b => b)) dedup [id_a; id_b]
              (sample_world 10)))
    = (Ok (foo ++ bar), w2)
    /\ ReadHashBlobReferences (foo ++ bar) w2
       = (fst (ReadHashBlobReferences (foo ++ bar)
                 (snd (AddFileWithUnknownHash (buffered (fun b => b)) dedup
                         [id_a; id_b] (sample_world 10)))), w2)
    /\ BLOBS w2 = BLOBS (sample_world 10).
Proof.
  apply (@X13_composing_twice_is_idempotent (buffered (fun b => b)) dedup
           [id_a; id_b] (sample_world 10) (foo ++ bar)).
  - apply In_dedup.
  - vm_compute. reflexivity.
Defined.

(** X14.  A successful call makes one [ReadBlobs] call per batch of 200
    ids, that is (n + 199) / 200 calls for n ids, and, the backend being
    asked for a set, none of them asks for more than 200 blobs. *)
Theorem X14_one_fetch_per_batch (H : hashlib) fetch_order ids w hash_id w' :
  (forall batch k, In k (fetch_order batch) -> In k batch) ->
  (forall batch, NoDup (fetch_order batch)) ->
  AddFileWithUnknownHash H fetch_order ids w = (Ok hash_id, w') ->
  exists calls,
    BLOBS_reads w' = calls ++ BLOBS_reads w
    /\ List.length calls = ((List.length ids + 199) / 200)%nat
    /\ Forall (fun call => (List.length call <= 200)%nat) calls.
Proof.
  intros Hincl Hnodup Hrun.
  destruct (AddFile_run _ _ _ _ Hrun) as (_ & Hlog & _).
  exists (rev (map fetch_order (Batch ids _BLOBS_READ_BATCH_SIZE))).
  split; [exact Hlog|]. split.
  - rewrite length_rev, length_map. unfold Batch.
    rewrite Batch_from_count by (unfold _BLOBS_READ_BATCH_SIZE; simpl; lia).
    unfold _BLOBS_READ_BATCH_SIZE. simpl List.length.
    f_equal. lia.
  - apply Forall_rev, Forall_map.
    assert (Hb : Forall (fun b : list BlobID => (List.length b <= 200)%nat)
                   (Batch ids _BLOBS_READ_BATCH_SIZE)).
    { apply Batch_from_bound; unfold _BLOBS_READ_BATCH_SIZE; simpl; lia. }
    eapply Forall_impl; [|exact Hb].
    intros b Hlen. simpl in Hlen.
    assert ((List.length (fetch_order b) <= List.length b)%nat); [|lia].
    apply NoDup_incl_length; [apply Hnodup | intros k; apply Hincl].
Qed.

Lemma NoDup_dedup (l : list BlobID) : NoDup (dedup l).
Proof.
  induction l as [|k l IH]; simpl; [constructor|].
  destruct (existsb (bytes_eqb k) l) eqn:E; [exact IH|].
  constructor; [|exact IH].
  intros Hin. rewrite In_dedup in Hin.
  assert (existsb (bytes_eqb k) l = true); [|congruence].
  apply existsb_exists. exists k. split; [exact Hin | apply bytes_eqb_refl].
Qed.

Lemma X14_one_fetch_per_batch_witness :
  exists calls,
    BLOBS_reads
      (snd (AddFileWithUnknownHash (buffered (fun b => b)) dedup
              [id_a; id_b; id_a] (sample_world 10)))
    = calls ++ BLOBS_reads (sample_world 10)
    /\ List.length calls = ((List.length [id_a; id_b; id_a] + 199) / 200)%nat
    /\ Forall (fun call => (List.length call <= 200)%nat) calls.
Proof.
  apply (@X14_one_fetch_per_batch (buffered (fun b => b)) dedup
           [id_a; id_b; id_a] (sample_world 10) (foo ++ bar ++ foo)).
  - intros batch k. apply In_dedup.
  - apply NoDup_dedup.
  - vm_compute. reflexivity.
Defined.

(** X15.  Round trip: after a non-empty list of ids has been composed,
    opening a path that is bound to the returned hash gives a stream
    with that hash as identity, whose size is the number of bytes of the
    blobs and whose [Read()] returns the blobs concatenated in the order
    of the ids (when that many bytes are within the read ceiling).  The
    hash is a SHA-256 id, 32 bytes. *)
Theorem X15_compose_open_read_round_trip (H : hashlib) (f : bytes -> bytes)
  fetch_order ids w client_path max_timestamp path_info :
  streams H f ->
  (forall batch k, In k (fetch_order batch) <-> In k batch) ->
  (forall k, In k ids -> getitem (BLOBS w) k <> None) ->
  ids <> [] ->
  Z.of_nat (List.length (List.concat (map (blob_of (BLOBS w)) ids)))
  <= max_unbound_read_size w ->
  fst (ReadLatestPathInfosWithHashBlobReferences client_path max_timestamp w)
  = Ok (Some path_info) ->
  hash_entry_sha256 path_info = f (List.concat (map (blob_of (BLOBS w)) ids)) ->
  List.length (f (List.concat (map (blob_of (BLOBS w)) ids))) = 32%nat ->
  exists w1 o s',
    AddFileWithUnknownHash H fetch_order ids w
    = (Ok (f (List.concat (map (blob_of (BLOBS w)) ids))), w1)
    /\ OpenFile client_path max_timestamp w1 = (Ok o, w1)
    /\ BlobStream.hash_id o = f (List.concat (map (blob_of (BLOBS w)) ids))
    /\ BlobStream.size o
       = Z.of_nat (List.length (List.concat (map (blob_of (BLOBS w)) ids)))
    /\ BlobStream.Read None (o, w1)
       = Some (Ok (List.concat (map (blob_of (BLOBS w)) ids)), s').
Proof.
  intros Hstreams Horder Hall Hne Hmax Hres Hsha H32.
  destruct (@composed_file_reads_back H f fetch_order ids w
              Hstreams Horder Hall Hne Hmax)
    as (h & w1 & refs & o & s' & Hrun & Hread_refs & Hinit & Hread).
  destruct (@AddFile_returns_digest H f fetch_order ids (BLOBS w) w
              Hstreams Horder eq_refl Hall) as (w1' & Hrun').
  rewrite Hrun in Hrun'. injection Hrun' as -> <-.
  destruct (AddFile_run _ _ _ _ Hrun) as (_ & _ & Hpaths & _).
  destruct (AddFile_persists _ _ _ _ Hrun) as (Hrefs & Hb & _).
  exists w1, o, s'. split; [exact Hrun|].
  assert (Hrefs_eq : refs = refs_from (BLOBS w) 0 ids).
  { unfold ReadHashBlobReferences in Hread_refs.
    rewrite Hrefs, getitem_head in Hread_refs. congruence. }
  split; [|split; [|split]].
  - rewrite OpenFile_cases.
    unfold ReadLatestPathInfosWithHashBlobReferences in Hres.
    cbn [fst] in Hres. injection Hres as Hres.
    unfold bindings_of in *. rewrite Hpaths, Hres. cbv zeta.
    rewrite Hsha, H32. simpl Nat.eqb.
    unfold ReadHashBlobReferences in Hread_refs.
    injection Hread_refs as Hread_refs. rewrite Hread_refs.
    exact Hinit.
  - revert Hinit. unfold BlobStream.__init__, bind, get, ret, raise. simpl.
    destruct (last_item refs); [|discriminate]. now intros [= <-].
  - revert Hinit. unfold BlobStream.__init__, bind, get, ret, raise. simpl.
    destruct (last_item refs) as [l|] eqn:El; [|discriminate].
    intros [= <-]. unfold BlobStream.size. simpl.
    pose proof (refs_from_contiguous (BLOBS w) ids 0) as Hc.
    rewrite <- Hrefs_eq in Hc.
    rewrite (contiguous_last _ _ Hc El), Z.add_0_l.
    rewrite <- (@logical_file_length (BLOBS w) refs).
    + now rewrite Hrefs_eq, refs_from_logical_file.
    + rewrite Hrefs_eq. now apply refs_from_stored.
  - exact Hread.
Qed.

Lemma X15_compose_open_read_round_trip_witness :
  exists w1 o s',
    AddFileWithUnknownHash (buffered pad32) dedup [id_a; id_b] bound_to_foobar
    = (Ok (pad32 (List.concat
                    (map (blob_of (BLOBS bound_to_foobar)) [id_a; id_b]))),
       w1)
    /\ OpenFile tmp_x None w1 = (Ok o, w1)
    /\ BlobStream.hash_id o
       = pad32 (List.concat
                  (map (blob_of (BLOBS bound_to_foobar)) [id_a; id_b]))
    /\ BlobStream.size o
       = Z.of_nat (List.length
                     (List.concat
                        (map (blob_of (BLOBS bound_to_foobar)) [id_a; id_b])))
    /\ BlobStream.Read None (o, w1)
       = Some (Ok (List.concat
                     (map (blob_of (BLOBS bound_to_foobar)) [id_a; id_b])),
               s').
Proof.
  apply (@X15_compose_open_read_round_trip (buffered pad32) pad32 dedup
           [id_a; id_b] bound_to_foobar tmp_x None
           {| timestamp := 5; hash_entry_sha256 := pad32 (foo ++ bar) |}).
  - apply buffered_streams.
  - apply In_dedup.
  - intros k [<-|[<-|[]]]; discriminate.
  - discriminate.
  - simpl. lia.
  - reflexivity.
  - reflexivity.
  - reflexivity.
Defined.

(** * [CheckHashes] *)

(** X16.  [CheckHashes] leaves the world as it is and answers for
    exactly the hashes it was asked about: [True] when the metadata
    store records a non-empty reference list for the hash, [False] when
    it records none or an empty one. *)
Theorem X16_CheckHashes_reports_nonempty_lists (hash_ids : list HashID)
  (w : World) :
  exists d,
    CheckHashes hash_ids w = (Ok d, w)
    /\ forall h,
         (In h hash_ids ->
          (getitem d h = Some true
           <-> exists r refs, getitem (hash_blob_refs w) h = Some (r :: refs))
          /\ (getitem d h = Some false
              <-> getitem (hash_blob_refs w) h = None
                  \/ getitem (hash_blob_refs w) h = Some []))
         /\ (~ In h hash_ids -> getitem d h = None).
Proof.
  eexists. split; [reflexivity|]. intros h.
  unfold ReadHashBlobReferences_dict. simpl. rewrite map_map. simpl.
  induction hash_ids as [|k ids IH]; simpl.
  - split; [tauto | reflexivity].
  - destruct (bytes_eqb k h) eqn:E.
    + apply bytes_eqb_eq in E. subst k. split; [|tauto]. intros _.
      destruct (getitem (hash_blob_refs w) h) as [[|r refs]|]; simpl; split;
        split; try discriminate; eauto;
        try (intros (? & ? & ?); discriminate);
        try (intros [?|?]; discriminate).
    + destruct IH as [IHin IHout]. split.
      * intros [->|Hin]; [now rewrite bytes_eqb_refl in E | auto].
      * intros Hn. apply IHout. tauto.
Qed.

(** X17.  A file composed from a non-empty list of ids is reported as
    present by [CheckHashes]. *)
Theorem X17_composed_file_is_present (H : hashlib) fetch_order ids w
  hash_id w' :
  ids <> [] ->
  AddFileWithUnknownHash H fetch_order ids w = (Ok hash_id, w') ->
  CheckHashes [hash_id] w' = (Ok [(hash_id, true)], w').
Proof.
  intros Hne Hrun.
  destruct (AddFile_persists _ _ _ _ Hrun) as (Hrefs & _ & _).
  unfold CheckHashes, ReadHashBlobReferences_dict, bind, ret. simpl.
  rewrite Hrefs, getitem_head.
  destruct ids; [congruence | reflexivity].
Qed.

Lemma X17_composed_file_is_present_witness :
  CheckHashes [foo ++ bar]
    (snd (AddFileWithUnknownHash (buffered (fun b => b)) dedup [id_a; id_b]
            (sample_world 10)))
  = (Ok [(foo ++ bar, true)],
     snd (AddFileWithUnknownHash (buffered (fun b => b)) dedup [id_a; id_b]
            (sample_world 10))).
Proof.
  apply (@X17_composed_file_is_present (buffered (fun b => b)) dedup
           [id_a; id_b] (sample_world 10) (foo ++ bar)).
  - discriminate.
  - vm_compute. reflexivity.
Defined.

Lemma X16_CheckHashes_reports_nonempty_lists_witness :
  exists d,
    CheckHashes [hash_1; foo] (collected_world foobar_refs)
    = (Ok d, collected_world foobar_refs)
    /\ getitem d hash_1 = Some true
    /\ getitem d foo = Some false
    /\ getitem d bar = None.
Proof.
  destruct (X16_CheckHashes_reports_nonempty_lists [hash_1; foo]
              (collected_world foobar_refs)) as (d & Hrun & Hd).
  exists d. split; [exact Hrun|]. split; [|split].
  - destruct (Hd hash_1) as [Hin _].
    destruct Hin as [Htrue _]; [simpl; tauto|].
    apply Htrue. eexists _, _. reflexivity.
  - destruct (Hd foo) as [Hin _].
    destruct Hin as [_ Hfalse]; [simpl; tauto|].
    apply Hfalse. left. reflexivity.
  - destruct (Hd bar) as [_ Hout]. apply Hout.
    intros [E|[E|[]]]; discriminate.
Defined.

(** * [CompositeExternalFileStore] *)

Lemma AddFile_loop_app {S : Type}
  (l1 l2 : list (CompositeExternalFileStore.ExternalFileStore S))
  (file_hash : HashID) (blob_refs : list BlobReference) (s : S) :
  CompositeExternalFileStore.AddFile_loop (l1 ++ l2) file_hash blob_refs s
  = (CompositeExternalFileStore.AddFile_loop l1 file_hash blob_refs ;;;
     CompositeExternalFileStore.AddFile_loop l2 file_hash blob_refs) s.
Proof.
  revert s; induction l1 as [|fs l1 IH]; intros s; simpl.
  - reflexivity.
  - unfold bind in *. destruct (fs file_hash blob_refs s) as [[[]|e] s1].
    + apply IH.
    + reflexivity.
Qed.

(** X18.  Registration order is notification order: registering a store
    appends it to the nested stores, so that [AddFile] then notifies the
    stores registered before and, if none of them raised, the new one
    last.  An object that is not an [ExternalFileStore] is refused with
    [TypeError] and the composite is left as it was; the composite
    created with no stores notifies nobody. *)
Theorem X18_stores_are_notified_in_registration_order {S : Type}
  (self : CompositeExternalFileStore.t S)
  (fs : CompositeExternalFileStore.ExternalFileStore S)
  (file_hash : HashID) (blob_refs : list BlobReference) (s : S) :
  (exists self',
     CompositeExternalFileStore.RegisterFileStore
       (CompositeExternalFileStore.Instance fs) self = (Ok tt, self')
     /\ CompositeExternalFileStore.nested_stores self'
        = CompositeExternalFileStore.nested_stores self ++ [fs]
     /\ CompositeExternalFileStore.AddFile self' file_hash blob_refs s
        = (CompositeExternalFileStore.AddFile self file_hash blob_refs ;;;
           fs file_hash blob_refs) s)
  /\ CompositeExternalFileStore.RegisterFileStore
       (CompositeExternalFileStore.Other S) self = (Raise TypeError, self)
  /\ CompositeExternalFileStore.AddFile
       (CompositeExternalFileStore.EXTERNAL_FILE_STORE S) file_hash blob_refs s
     = (Ok tt, s).
Proof.
  split; [|split; reflexivity].
  eexists. split; [reflexivity|]. split; [reflexivity|].
  unfold CompositeExternalFileStore.AddFile. simpl.
  rewrite AddFile_loop_app. unfold bind.
  destruct (CompositeExternalFileStore.AddFile_loop _ _ _ s) as [[[]|e] s1];
    [|reflexivity].
  simpl. unfold bind. now destruct (fs file_hash blob_refs s1) as [[[]|e] s2].
Qed.

(** X19.  A store that raises stops the fan-out: the exception reaches
    the caller of [AddFile], the stores registered before it have been
    notified, and the stores registered after it are not. *)
Theorem X19_failing_store_stops_the_fan_out {S : Type}
  (before after : list (CompositeExternalFileStore.ExternalFileStore S))
  (fs : CompositeExternalFileStore.ExternalFileStore S)
  (file_hash : HashID) (blob_refs : list BlobReference)
  (s s1 s2 : S) (e : Error) :
  CompositeExternalFileStore.AddFile
    (CompositeExternalFileStore.mk before) file_hash blob_refs s = (Ok tt, s1) ->
  fs file_hash blob_refs s1 = (Raise e, s2) ->
  CompositeExternalFileStore.AddFile
    (CompositeExternalFileStore.mk (before ++ fs :: after))
    file_hash blob_refs s
  = (Raise e, s2).
Proof.
  unfold CompositeExternalFileStore.AddFile. simpl. intros Hbefore Hfs.
  rewrite AddFile_loop_app. unfold bind at 1. rewrite Hbefore.
  simpl. unfold bind. now rewrite Hfs.
Qed.

Lemma X19_failing_store_stops_the_fan_out_witness :
  CompositeExternalFileStore.AddFile
    (CompositeExternalFileStore.mk
       ([logging_store 1; logging_store 2]
        ++ refusing_store :: [logging_store 3]))
    hash_1 foobar_refs []
  = (Raise (MissingBlobReferences hash_1), [1%nat; 2%nat]).
Proof.
  apply (@X19_failing_store_stops_the_fan_out (list nat)
           [logging_store 1; logging_store 2] [logging_store 3]
           refusing_store hash_1 foobar_refs [] [1%nat; 2%nat]
           [1%nat; 2%nat] (MissingBlobReferences hash_1));
    reflexivity.
Defined.
